(** * DataProcessor: a chainable container over an array of numbers

    Shallow embedding of [src/index.ts].  A JavaScript [number] is an IEEE 754
    binary64 value, modelled by the Standard Library's [spec_float] at
    precision 53 and maximal exponent 1024.  Arrays and [DataProcessor]
    objects live in a store of references, so that copying ([[...a]]),
    replacing ([this.data = ...]) and updating in place ([this.data.sort])
    are told apart.  A method is a computation in a state-and-failure monad
    over that store. *)

From Stdlib Require Import ZArith Lia SpecFloat.
From stdpp Require Import gmap list sorting.

Local Open Scope Z_scope.

(** ** Numbers *)

Module Number.

Definition prec : Z := 53.
Definition emax : Z := 1024.

(** [a + b], [a * b], [a - b], [-a], [a > b] and [a <= b] of the source
    language. *)
Definition add (a b : spec_float) : spec_float := SFadd prec emax a b.
Definition mul (a b : spec_float) : spec_float := SFmul prec emax a b.
Definition sub (a b : spec_float) : spec_float := SFsub prec emax a b.
Definition neg (a : spec_float) : spec_float := SFopp a.
Definition gt (a b : spec_float) : bool := SFltb b a.
Definition le (a b : spec_float) : bool := SFleb a b.

(** The values a [number] can take: [spec_float] without the
    representations that no binary64 value has. *)
Definition is_number (a : spec_float) : Prop := valid_binary prec emax a = true.

(** Integer literals, [Infinity] and [NaN]. *)
Definition of_Z (z : Z) : spec_float := binary_normalize prec emax z 0 false.
Definition Infinity : spec_float := S754_infinity false.
Definition NaN : spec_float := S754_nan.

Definition is_nan (a : spec_float) : bool :=
  match a with S754_nan => true | _ => false end.
Definition is_zero (a : spec_float) : bool :=
  match a with S754_zero _ => true | _ => false end.
Definition is_finite (a : spec_float) : bool :=
  match a with S754_zero _ | S754_finite _ _ _ => true | _ => false end.

(** The sign of [v]: [Lt] below zero, [Gt] above, [Eq] for a zero and for
    [NaN]. *)
Definition sign_of (v : spec_float) : comparison :=
  match v with
  | S754_nan | S754_zero _ => Eq
  | S754_infinity s | S754_finite s _ _ => if s then Lt else Gt
  end.

(** The value of a finite number, counted in units of the least positive
    number [2 ^ -1074]; an infinity is placed beyond every finite value. *)
Definition units (a : spec_float) : Z :=
  match a with
  | S754_zero _ | S754_nan => 0
  | S754_infinity s => cond_Zopp s (2 ^ 2098)
  | S754_finite s m e => cond_Zopp s (Z.pos m * 2 ^ (e + 1074))
  end.

(** [a === b] for numbers other than [NaN]: the same number, or two
    zeros. *)
Definition same_value (a b : spec_float) : Prop :=
  a = b ∨ (is_zero a = true ∧ is_zero b = true).

(** [a + b] is exact: it is finite and nothing was rounded away. *)
Definition exact_add (a b : spec_float) : Prop :=
  is_finite (add a b) = true ∧ units (add a b) = units a + units b.

(** What [a * 0] is. *)
Definition times_zero (a : spec_float) : spec_float :=
  match a with
  | S754_zero s | S754_finite s _ _ => S754_zero s
  | S754_infinity _ | S754_nan => S754_nan
  end.

(** Notions used when reasoning about rounding. *)
Definition exact_record (x : Z) : shr_record :=
  {| shr_m := x; shr_r := false; shr_s := false |}.

Definition has_sign (s : bool) (a : spec_float) : Prop :=
  match a with
  | S754_infinity s' => s' = s
  | S754_finite s' _ e => s' = s ∧ -1074 ≤ e
  | _ => False
  end.

End Number.

Import Number.

(** ** The store *)

Abbreviation aref := positive (only parsing).
Abbreviation pref := positive (only parsing).

(** [arrays] holds the contents of every array, [procs] the [data] field of
    every [DataProcessor], and [timers] the delays passed to [setTimeout] so
    far, most recent first. *)
Record heap : Type := Heap {
  arrays : gmap positive (list spec_float);
  procs : gmap positive positive;
  timers : list spec_float
}.

Definition set_arrays (f : gmap positive (list spec_float) → gmap positive (list spec_float))
    (h : heap) : heap :=
  {| arrays := f (arrays h); procs := procs h; timers := timers h |}.
Definition set_procs (f : gmap positive positive → gmap positive positive)
    (h : heap) : heap :=
  {| arrays := arrays h; procs := f (procs h); timers := timers h |}.
Definition set_timers (f : list spec_float → list spec_float) (h : heap) : heap :=
  {| arrays := arrays h; procs := procs h; timers := f (timers h) |}.

(** A computation either fails (a [TypeError] on a dangling reference, which
    a well-typed caller never triggers) or returns a value and a new store. *)
Definition Js (A : Type) : Type := heap → option (A * heap).

#[global] Instance Js_ret : MRet Js := λ A a h, Some (a, h).
#[global] Instance Js_bind : MBind Js := λ A B f m h,
  match m h with
  | Some (a, h') => f a h'
  | None => None
  end.

(** *** Primitive steps *)

(** [a] as an rvalue: the contents of array [a]. *)
Definition read (a : aref) : Js (list spec_float) := λ h,
  match arrays h !! a with
  | Some l => Some (l, h)
  | None => None
  end.

(** An array literal or the fresh result of [map], [filter] or spread. *)
Definition alloc (l : list spec_float) : Js aref := λ h,
  let a := fresh (dom (arrays h)) in
  Some (a, set_arrays <[a := l]> h).

(** Any update of array [a] in place (index assignment, [push], [sort] ...):
    its contents become [l]. *)
Definition write (a : aref) (l : list spec_float) : Js unit := λ h,
  match arrays h !! a with
  | Some _ => Some (tt, set_arrays <[a := l]> h)
  | None => None
  end.

(** [this.data] *)
Definition get_data (this : pref) : Js aref := λ h,
  match procs h !! this with
  | Some d => Some (d, h)
  | None => None
  end.

(** [this.data = d] *)
Definition put_data (this : pref) (d : aref) : Js unit := λ h,
  match procs h !! this with
  | Some _ => Some (tt, set_procs <[this := d]> h)
  | None => None
  end.

(** The object created by [new DataProcessor], its field set to [d]. *)
Definition new_proc (d : aref) : Js pref := λ h,
  let p := fresh (dom (procs h)) in
  Some (p, set_procs <[p := d]> h).

(** [await new Promise(resolve => setTimeout(resolve, delayMs))], run to
    completion: the timer is recorded and the chain resumes in the store it
    was suspended in, calls on one instance being made one after the other. *)
Definition sleep (delayMs : spec_float) : Js unit := λ h,
  Some (tt, set_timers (cons delayMs) h).

(** *** Array methods of the host *)

Definition Array_map (f : spec_float → spec_float) (a : aref) : Js aref :=
  l ← read a; alloc (map f l).

Definition Array_filter (p : spec_float → bool) (a : aref) : Js aref :=
  l ← read a; alloc (filter (λ x, p x = true) l).

(** [[...a]] *)
Definition spread (a : aref) : Js aref :=
  l ← read a; alloc l.

(** What [Array.prototype.sort] makes of the comparator's result [v]: a [NaN]
    counts as [+0], and only the sign matters. *)
Definition SortCompare (comparefn : spec_float → spec_float → spec_float)
    (x y : spec_float) : comparison :=
  sign_of (comparefn x y).

(** [Array.prototype.sort] is the host's.  The language fixes its result for
    a consistent comparator, where it is the stable sort; it is modelled by
    stable insertion.  A comparator that meets [NaN] is not consistent: there
    the arrangement is the host's own choice, and nothing is stated below
    about it beyond what every arrangement has. *)
Fixpoint insert_sorted (comparefn : spec_float → spec_float → spec_float)
    (x : spec_float) (l : list spec_float) : list spec_float :=
  match l with
  | [] => [x]
  | y :: l' =>
      match SortCompare comparefn x y with
      | Gt => y :: insert_sorted comparefn x l'
      | _ => x :: y :: l'
      end
  end.

Fixpoint sort_list (comparefn : spec_float → spec_float → spec_float)
    (l : list spec_float) : list spec_float :=
  match l with
  | [] => []
  | x :: l' => insert_sorted comparefn x (sort_list comparefn l')
  end.

(** [a.sort(comparefn)]: sorts [a] in place and returns [a]. *)
Definition Array_sort (comparefn : spec_float → spec_float → spec_float)
    (a : aref) : Js aref :=
  l ← read a; _ ← write a (sort_list comparefn l); mret a.

(** ** The class [DataProcessor] *)

Module DataProcessor.

(** [constructor(initialData: number[] = [])] *)
Definition constructor (initialData : option aref) : Js pref :=
  init ← match initialData with
         | Some a => mret a
         | None => alloc []
         end;
  d ← spread init;
  new_proc d.

Definition add (this : pref) (value : spec_float) : Js pref :=
  d ← get_data this;
  d' ← Array_map (λ item, Number.add item value) d;
  _ ← put_data this d';
  mret this.

Definition addAsync (this : pref) (value delayMs : spec_float) : Js pref :=
  _ ← sleep delayMs;
  d ← get_data this;
  d' ← Array_map (λ item, Number.add item value) d;
  _ ← put_data this d';
  mret this.

Definition multiply (this : pref) (value : spec_float) : Js pref :=
  d ← get_data this;
  d' ← Array_map (λ item, Number.mul item value) d;
  _ ← put_data this d';
  mret this.

Definition multiplyAsync (this : pref) (value delayMs : spec_float) : Js pref :=
  _ ← sleep delayMs;
  d ← get_data this;
  d' ← Array_map (λ item, Number.mul item value) d;
  _ ← put_data this d';
  mret this.

Definition filterGreaterThan (this : pref) (threshold : spec_float) : Js pref :=
  d ← get_data this;
  d' ← Array_filter (λ item, Number.gt item threshold) d;
  _ ← put_data this d';
  mret this.

Definition filterGreaterThanAsync (this : pref) (threshold delayMs : spec_float) : Js pref :=
  _ ← sleep delayMs;
  d ← get_data this;
  d' ← Array_filter (λ item, Number.gt item threshold) d;
  _ ← put_data this d';
  mret this.

(** The comparator [(a, b) => ascending ? a - b : b - a]. *)
Definition comparator (ascending : bool) (a b : spec_float) : spec_float :=
  if ascending then Number.sub a b else Number.sub b a.

Definition sort (this : pref) (ascending : bool) : Js pref :=
  d ← get_data this;
  _ ← Array_sort (comparator ascending) d;
  mret this.

Definition getResult (this : pref) : Js aref :=
  d ← get_data this;
  spread d.

Definition getResultAsync (this : pref) (delayMs : spec_float) : Js aref :=
  _ ← sleep delayMs;
  d ← get_data this;
  spread d.

End DataProcessor.

Definition createProcessor (initialData : option aref) : Js pref :=
  DataProcessor.constructor initialData.

Definition createProcessorAsync (initialData : option aref) (delayMs : spec_float) : Js pref :=
  _ ← sleep delayMs;
  DataProcessor.constructor initialData.

(** Default values of the optional parameters. *)
Definition default_delay : spec_float := of_Z 100.
Definition default_create_delay : spec_float := of_Z 200.

(** ** Observations *)

(** The sequence held by processor [p] in store [h]. *)
Definition contents (h : heap) (p : pref) : option (list spec_float) :=
  d ← procs h !! p; arrays h !! d.

(** The store without its record of timers. *)
Definition untimed (h : heap) : gmap positive (list spec_float) * gmap positive positive :=
  (arrays h, procs h).

Definition outcome {A : Type} (r : option (A * heap)) :
    option (A * (gmap positive (list spec_float) * gmap positive positive)) :=
  prod_map id untimed <$> r.

Definition empty_heap : heap := {| arrays := ∅; procs := ∅; timers := [] |}.

(** The contents of processor [p] after running [m], if [m] returns [p]. *)
Definition result_of (m : Js pref) (h : heap) : option (list spec_float) :=
  match m h with
  | Some (p, h') => contents h' p
  | None => None
  end.

Definition nums (l : list Z) : list spec_float := map of_Z l.

(** A store holding the array [l] and nothing else. *)
Definition one_array (l : list spec_float) : heap :=
  default empty_heap (snd <$> alloc l empty_heap).

(** A store holding one array [l] and one processor created from it. *)
Definition fresh_processor (l : list spec_float) : pref * heap :=
  default (1%positive, empty_heap) ((a ← alloc l; createProcessor (Some a)) empty_heap).

(** The store after [this.data] is replaced by a fresh array holding [l]. *)
Definition with_data (this : pref) (l : list spec_float) (h : heap) : heap :=
  let a := fresh (dom (arrays h)) in
  {| arrays := <[a := l]> (arrays h); procs := <[this := a]> (procs h);
     timers := timers h |}.

(** A computation that neither reads nor writes the record of timers. *)
Definition timer_blind {A : Type} (m : Js A) : Prop :=
  ∀ f h, m (set_timers f h) = prod_map id (set_timers f) <$> m h.

(** The elements the comparator of [sort] is consistent on. *)
Definition ordered_number (a : spec_float) : Prop :=
  is_number a ∧ is_nan a = false.

(** The order [sort(ascending)] is meant to produce. *)
Definition in_order (ascending : bool) (a b : spec_float) : Prop :=
  if ascending then Number.le a b = true else Number.le b a = true.

(** ** Chains of calls *)

(** A call of one of the chainable methods, as the callers write them:
    [p.add(5).multiply(2)], or [p.addAsync(5).then(p => p.multiplyAsync(2))]. *)
Inductive call : Type :=
  | Add (value : spec_float)
  | Multiply (value : spec_float)
  | FilterGreaterThan (threshold : spec_float)
  | Sort (ascending : bool).

Definition invoke (c : call) (this : pref) : Js pref :=
  match c with
  | Add value => DataProcessor.add this value
  | Multiply value => DataProcessor.multiply this value
  | FilterGreaterThan threshold => DataProcessor.filterGreaterThan this threshold
  | Sort ascending => DataProcessor.sort this ascending
  end.

(** The suspending variant of a call; [sort] has none and runs at once. *)
Definition invokeAsync (c : call) (delayMs : spec_float) (this : pref) : Js pref :=
  match c with
  | Add value => DataProcessor.addAsync this value delayMs
  | Multiply value => DataProcessor.multiplyAsync this value delayMs
  | FilterGreaterThan threshold =>
      DataProcessor.filterGreaterThanAsync this threshold delayMs
  | Sort ascending => DataProcessor.sort this ascending
  end.

(** What a call makes of the sequence. *)
Definition effect (c : call) (l : list spec_float) : list spec_float :=
  match c with
  | Add value => map (λ item, Number.add item value) l
  | Multiply value => map (λ item, Number.mul item value) l
  | FilterGreaterThan threshold => filter (λ item, Number.gt item threshold = true) l
  | Sort ascending => sort_list (DataProcessor.comparator ascending) l
  end.

(** [this.c1(..).c2(..)...]: each call is made on what the one before it
    returned. *)
Fixpoint chain (cs : list call) (this : pref) : Js pref :=
  match cs with
  | [] => mret this
  | c :: cs => p ← invoke c this; chain cs p
  end.

(** [this.c1Async(..).then(p => p.c2Async(..))...], each call with its own
    delay. *)
Fixpoint chainAsync (cs : list (call * spec_float)) (this : pref) : Js pref :=
  match cs with
  | [] => mret this
  | (c, delayMs) :: cs => p ← invokeAsync c delayMs this; chainAsync cs p
  end.

(** Chains on several processors run together, as under [Promise.all]: the
    calls resume one at a time, in the order [steps] gives. *)
Fixpoint schedule (steps : list (positive * call * spec_float)) : Js unit :=
  match steps with
  | [] => mret tt
  | (p, c, delayMs) :: steps => _ ← invokeAsync c delayMs p; schedule steps
  end.

(** The calls of [steps] made on processor [p], in their order. *)
Definition calls_on (p : pref) (steps : list (positive * call * spec_float)) : list call :=
  (λ s, s.1.2) <$> filter (λ s, s.1.1 = p) steps.

(** The sequence [l] after the calls [cs], one after the other. *)
Definition effects (cs : list call) (l : list spec_float) : list spec_float :=
  foldl (λ l c, effect c l) l cs.

(** ** Ownership of the arrays *)

(** The array of every processor exists, and no two processors hold the same
    array. *)
Definition separated (h : heap) : Prop :=
  map_Forall (λ p d, is_Some (arrays h !! d) ∧
                     map_Forall (λ q d', d' = d → q = p) (procs h)) (procs h).

(** Array [a] exists and is the array of no processor: it is the caller's,
    as what is passed to the constructor and what [getResult] returns. *)
Definition caller_owned (h : heap) (a : aref) : Prop :=
  is_Some (arrays h !! a) ∧ map_Forall (λ _ d, d ≠ a) (procs h).

(** What a call on [p] does to the arrays and the processors: the new
    sequence [l] is stored in a fresh array that becomes the array of [p], or
    it overwrites the array of [p]. *)
Definition updates (p : pref) (l : list spec_float) (h h' : heap) : Prop :=
  (arrays h' = <[fresh (dom (arrays h)) := l]> (arrays h) ∧
   procs h' = <[p := fresh (dom (arrays h))]> (procs h)) ∨
  (∃ d, procs h !! p = Some d ∧
        arrays h' = <[d := l]> (arrays h) ∧ procs h' = procs h).

#[global] Instance separated_dec (h : heap) : Decision (separated h).
Proof. unfold separated. apply _. Defined.

#[global] Instance caller_owned_dec (h : heap) (a : aref) : Decision (caller_owned h a).
Proof. unfold caller_owned. apply _. Defined.

(** Two processors made from [l1] and [l2], as in the parallel test. *)
Definition two_processors (l1 l2 : list spec_float) : positive * positive * heap :=
  default (1%positive, 1%positive, empty_heap)
    ((a1 ← alloc l1; p1 ← createProcessor (Some a1);
      a2 ← alloc l2; p2 ← createProcessor (Some a2);
      mret (p1, p2)) empty_heap).

(** The delays of the suspending calls of a chain; [sort] waits for none. *)
Definition delays (cs : list (call * spec_float)) : list spec_float :=
  omap (λ s, match s.1 with Sort _ => None | _ => Some s.2 end) cs.

(** No [sort] of the calls [cs], made one after the other on the sequence
    [l], meets a [NaN]. *)
Fixpoint sorts_without_NaN (cs : list call) (l : list spec_float) : bool :=
  match cs with
  | [] => true
  | c :: cs =>
      match c with
      | Sort _ => forallb (λ e, negb (is_nan e)) l
      | _ => true
      end && sorts_without_NaN cs (effect c l)
  end.




(** The numbers written [0.1] and [0.2]. *)
Definition one_tenth : spec_float := S754_finite false 7205759403792794 (-56).
Definition two_tenths : spec_float := S754_finite false 7205759403792794 (-55).

(** What [a + 0] is. *)
Definition plus_zero (a : spec_float) : spec_float :=
  match a with
  | S754_zero _ => S754_zero false
  | _ => a
  end.

(** * Facts about numbers *)

Section Digits.

Lemma digits2_pos_bounds (m : positive) :
  2 ^ (Z.pos (digits2_pos m) - 1) ≤ Z.pos m < 2 ^ Z.pos (digits2_pos m).
Proof.
  induction m as [m IH|m IH|]; cbn [digits2_pos].
  - rewrite Pos2Z.inj_succ, Z.pow_succ_r by lia.
    replace (Z.succ (Z.pos (digits2_pos m)) - 1) with (Z.succ (Z.pos (digits2_pos m) - 1)) by lia.
    rewrite Z.pow_succ_r by lia. lia.
  - rewrite Pos2Z.inj_succ, Z.pow_succ_r by lia.
    replace (Z.succ (Z.pos (digits2_pos m)) - 1) with (Z.succ (Z.pos (digits2_pos m) - 1)) by lia.
    rewrite Z.pow_succ_r by lia. lia.
  - simpl. lia.
Qed.

(** The number of digits is determined by the bounds. *)
Lemma digits2_pos_unique (m : positive) (d : Z) :
  2 ^ (d - 1) ≤ Z.pos m < 2 ^ d → Z.pos (digits2_pos m) = d.
Proof.
  intros [Hlo Hhi]. pose proof (digits2_pos_bounds m) as [Hlo' Hhi'].
  destruct (Z.lt_trichotomy (Z.pos (digits2_pos m)) d) as [Hlt|[->|Hgt]]; [|done|].
  - assert (2 ^ Z.pos (digits2_pos m) ≤ 2 ^ (d - 1)) by (apply Z.pow_le_mono_r; lia). lia.
  - assert (0 < d ∨ d ≤ 0) as [Hd|Hd] by lia.
    + assert (2 ^ d ≤ 2 ^ (Z.pos (digits2_pos m) - 1)) by (apply Z.pow_le_mono_r; lia). lia.
    + assert (2 ^ d ≤ 1); [|lia].
      destruct (decide (d = 0)) as [->|]; [done|]. rewrite Z.pow_neg_r by lia. lia.
Qed.

Lemma digits2_pos_shift (m : positive) (k : Z) :
  0 ≤ k → Z.pos (digits2_pos (Z.to_pos (Z.pos m * 2 ^ k))) = Z.pos (digits2_pos m) + k.
Proof.
  intros Hk. apply digits2_pos_unique.
  pose proof (digits2_pos_bounds m) as [Hlo Hhi].
  assert (0 < 2 ^ k) by (apply Z.pow_pos_nonneg; lia).
  rewrite Z2Pos.id by lia.
  replace (Z.pos (digits2_pos m) + k - 1) with (Z.pos (digits2_pos m) - 1 + k) by lia.
  rewrite !Z.pow_add_r by lia. nia.
Qed.

End Digits.

Section Rounding.

Lemma fexp_eq (x : Z) : fexp prec emax x = Z.max (x - 53) (-1074).
Proof. reflexivity. Qed.

Lemma shr_1_m (r : shr_record) : 0 ≤ shr_m r → shr_m (shr_1 r) = shr_m r / 2.
Proof.
  destruct r as [[|[p|p|]|p] b s]; cbn [shr_1 shr_m]; intros H; try done.
  - rewrite Pos2Z.inj_xI. apply Z.div_unique with 1; lia.
  - rewrite Pos2Z.inj_xO. apply Z.div_unique with 0; lia.
Qed.

Lemma pow2_xO (p : positive) : 2 ^ Z.pos p~0 = 2 ^ Z.pos p * 2 ^ Z.pos p.
Proof. rewrite <- Z.pow_add_r by lia. f_equal. lia. Qed.

Lemma pow2_xI (p : positive) : 2 ^ Z.pos p~1 = 2 * (2 ^ Z.pos p * 2 ^ Z.pos p).
Proof.
  rewrite <- Z.pow_add_r by lia. rewrite <- Z.pow_succ_r by lia. f_equal. lia.
Qed.

Lemma iter_shr_1_m (p : positive) (r : shr_record) :
  0 ≤ shr_m r → shr_m (SpecFloat.iter_pos shr_1 p r) = shr_m r / 2 ^ Z.pos p.
Proof.
  revert r. induction p as [p IH|p IH|]; intros r Hr; cbn [SpecFloat.iter_pos].
  - assert (0 ≤ shr_m (shr_1 r)) by (rewrite shr_1_m by done; apply Z.div_pos; lia).
    assert (0 < 2 ^ Z.pos p) by (apply Z.pow_pos_nonneg; lia).
    assert (0 ≤ shr_m (SpecFloat.iter_pos shr_1 p (shr_1 r))).
    { rewrite IH by done. apply Z.div_pos; lia. }
    rewrite !IH, shr_1_m by done. rewrite !Z.div_div by lia.
    by rewrite pow2_xI, Z.mul_assoc.
  - assert (0 < 2 ^ Z.pos p) by (apply Z.pow_pos_nonneg; lia).
    assert (0 ≤ shr_m (SpecFloat.iter_pos shr_1 p r)).
    { rewrite IH by done. apply Z.div_pos; lia. }
    rewrite !IH by done. rewrite !Z.div_div by lia.
    by rewrite pow2_xO.
  - by apply shr_1_m.
Qed.

Lemma shr_1_exact (x : Z) : shr_1 (exact_record (2 * x)) = exact_record x.
Proof. by destruct x. Qed.

Lemma iter_shr_1_exact (p : positive) (x : Z) :
  SpecFloat.iter_pos shr_1 p (exact_record (x * 2 ^ Z.pos p)) = exact_record x.
Proof.
  revert x. induction p as [p IH|p IH|]; intros x; cbn [SpecFloat.iter_pos].
  - rewrite pow2_xI.
    replace (x * (2 * (2 ^ Z.pos p * 2 ^ Z.pos p)))
      with (2 * (x * 2 ^ Z.pos p * 2 ^ Z.pos p)) by lia.
    by rewrite shr_1_exact, !IH.
  - rewrite pow2_xO.
    replace (x * (2 ^ Z.pos p * 2 ^ Z.pos p)) with (x * 2 ^ Z.pos p * 2 ^ Z.pos p) by lia.
    by rewrite !IH.
  - replace (x * 2 ^ 1) with (2 * x) by lia. apply shr_1_exact.
Qed.

(** Shifting a positive mantissa to its canonical exponent leaves it
    positive, above the least exponent. *)
Lemma shr_fexp_pos (m e : Z) (l : location) :
  0 < m → -1074 ≤ e →
  0 < shr_m (fst (shr_fexp prec emax m e l)) ∧ -1074 ≤ snd (shr_fexp prec emax m e l).
Proof.
  intros Hm He. unfold shr_fexp. rewrite fexp_eq.
  destruct m as [|m|m]; try lia. cbn [Zdigits2].
  pose proof (digits2_pos_bounds m) as [Hlo Hhi].
  set (d := Z.pos (digits2_pos m)) in *.
  assert (Hrec : shr_m (shr_record_of_loc (Z.pos m) l) = Z.pos m) by by destruct l as [|[]].
  unfold shr. destruct (Z.max (d + e - 53) (-1074) - e) as [|n|n] eqn:Hn; cbn [fst snd].
  - rewrite Hrec. lia.
  - rewrite iter_shr_1_m, Hrec by (rewrite Hrec; lia). split; [|lia].
    assert (Z.pos n ≤ d - 1) by lia.
    assert (2 ^ Z.pos n ≤ 2 ^ (d - 1)) by (apply Z.pow_le_mono_r; lia).
    assert (0 < 2 ^ Z.pos n) by (apply Z.pow_pos_nonneg; lia).
    apply Z.div_str_pos. lia.
  - rewrite Hrec. lia.
Qed.

Lemma round_nearest_even_ge (m : Z) (l : location) : m ≤ round_nearest_even m l.
Proof. destruct l as [|[]]; cbn; try lia. destruct (Z.even m); lia. Qed.

Lemma binary_round_aux_sign (s : bool) (m e : Z) (l : location) :
  0 < m → -1074 ≤ e → has_sign s (binary_round_aux prec emax s m e l).
Proof.
  intros Hm He. unfold binary_round_aux.
  pose proof (shr_fexp_pos m e l Hm He) as [H1 H1'].
  destruct (shr_fexp prec emax m e l) as [r1 e1]. cbn [fst snd] in *.
  pose proof (round_nearest_even_ge (shr_m r1) (loc_of_shr_record r1)) as Hge.
  pose proof (shr_fexp_pos (round_nearest_even (shr_m r1) (loc_of_shr_record r1)) e1 loc_Exact
    ltac:(lia) H1') as [H2 H2'].
  destruct (shr_fexp _ _ _ e1 loc_Exact) as [r2 e2]. cbn [fst snd] in *.
  destruct (shr_m r2); try lia. by destruct (_ <=? _).
Qed.

Lemma iter_xO_spec (m d : positive) :
  Z.pos (Pos.iter xO m d) = Z.pos m * 2 ^ Z.pos d.
Proof.
  induction d as [|d IH] using Pos.peano_ind.
  - simpl. lia.
  - rewrite Pos.iter_succ, Pos2Z.inj_succ, Z.pow_succ_r, Pos2Z.inj_xO, IH by lia. lia.
Qed.

Lemma shl_align_spec (m : positive) (e e' : Z) :
  e' ≤ e → shl_align m e e' = (Z.to_pos (Z.pos m * 2 ^ (e - e')), e').
Proof.
  intros He. unfold shl_align.
  destruct (e' - e) as [|d|d] eqn:Hd; try lia.
  - assert (e' = e) as -> by lia. by rewrite Z.sub_diag, Z.mul_1_r.
  - replace (e - e') with (Z.pos d) by lia. f_equal.
    apply Pos2Z.inj. rewrite Z2Pos.id, iter_xO_spec; [done|].
    assert (0 < 2 ^ Z.pos d) by (apply Z.pow_pos_nonneg; lia). lia.
Qed.

Lemma shl_align_ge (m : positive) (e e' : Z) :
  e < e' → shl_align m e e' = (m, e).
Proof. intros He. unfold shl_align. by destruct (e' - e) eqn:Hd; try lia. Qed.

Lemma binary_round_sign (s : bool) (m : positive) (e : Z) :
  -1074 ≤ e → has_sign s (binary_round prec emax s m e).
Proof.
  intros He. unfold binary_round. rewrite fexp_eq.
  destruct (shl_align _ _ _) as [mz ez] eqn:Hal.
  apply binary_round_aux_sign; [done|].
  destruct (decide (e < Z.max (Z.pos (digits2_pos m) + e - 53) (-1074))).
  - rewrite shl_align_ge in Hal by done. by simplify_eq.
  - rewrite shl_align_spec in Hal by lia. simplify_eq. lia.
Qed.

End Rounding.

Section Exact.

Lemma bounded_spec (m : positive) (e : Z) :
  bounded prec emax m e = true ↔
  Z.max (Z.pos (digits2_pos m) + e - 53) (-1074) = e ∧ e ≤ 971.
Proof.
  unfold bounded, canonical_mantissa. rewrite fexp_eq, andb_true_iff, Z.eqb_eq, Z.leb_le.
  done.
Qed.

Lemma bounded_range (m : positive) (e : Z) :
  bounded prec emax m e = true →
  -1074 ≤ e ≤ 971 ∧ Z.pos m < 2 ^ 53 ∧ (-1074 < e → 2 ^ 52 ≤ Z.pos m).
Proof.
  rewrite bounded_spec. intros [Hc He].
  pose proof (digits2_pos_bounds m) as [Hlo Hhi].
  set (d := Z.pos (digits2_pos m)) in *.
  split; [lia|]. split.
  - assert (2 ^ d ≤ 2 ^ 53) by (apply Z.pow_le_mono_r; lia). lia.
  - intros Hn. assert (d = 53) as Hd by lia. by rewrite Hd in Hlo.
Qed.

Lemma Zdigits2_shift (m : positive) (k : Z) :
  0 ≤ k → Zdigits2 (Z.pos m * 2 ^ k) = Z.pos (digits2_pos m) + k.
Proof.
  intros Hk. rewrite <- digits2_pos_shift by done.
  assert (0 < 2 ^ k) by (apply Z.pow_pos_nonneg; lia).
  destruct (Z.pos m * 2 ^ k) eqn:E; try lia. done.
Qed.

Lemma shr_exact (x e k : Z) :
  0 ≤ k → shr (exact_record (x * 2 ^ k)) e k = (exact_record x, e + k).
Proof.
  intros Hk. destruct k as [|k|k]; try lia; cbn [shr].
  - by rewrite Z.mul_1_r, Z.add_0_r.
  - by rewrite iter_shr_1_exact.
Qed.

(** Rounding a value that a number represents gives that number. *)
Lemma binary_round_aux_exact (s : bool) (m : positive) (e k : Z) :
  bounded prec emax m e = true → 0 ≤ k →
  binary_round_aux prec emax s (Z.pos m * 2 ^ k) (e - k) loc_Exact = S754_finite s m e.
Proof.
  intros Hb Hk. pose proof Hb as [Hc He]%bounded_spec.
  unfold binary_round_aux, shr_fexp. rewrite !fexp_eq, Zdigits2_shift by done.
  replace (Z.pos (digits2_pos m) + k + (e - k) - 53) with (Z.pos (digits2_pos m) + e - 53) by lia.
  rewrite Hc. cbn [shr_record_of_loc]. fold (exact_record (Z.pos m * 2 ^ k)).
  replace (e - (e - k)) with k by lia. rewrite shr_exact by done.
  cbn [exact_record shr_m loc_of_shr_record round_nearest_even Zdigits2 shr_record_of_loc].
  replace (e - k + k) with e by lia. rewrite fexp_eq, Hc, Z.sub_diag. cbn [shr shr_m].
  change (emax - prec) with 971. by apply Z.leb_le in He as ->.
Qed.


End Exact.

Section Valid.

Lemma Zdigits2_bounds (x : Z) :
  0 < x → 2 ^ (Zdigits2 x - 1) ≤ x < 2 ^ Zdigits2 x.
Proof. destruct x as [|p|p]; try lia. intros _. apply digits2_pos_bounds. Qed.

Lemma Zdigits2_unique (x d : Z) :
  0 < x → 2 ^ (d - 1) ≤ x < 2 ^ d → Zdigits2 x = d.
Proof. destruct x as [|p|p]; try lia. intros _. apply digits2_pos_unique. Qed.

Lemma Zdigits2_pos (x : Z) : 0 < x → 0 < Zdigits2 x.
Proof. destruct x as [|p|p]; cbn; lia. Qed.

Lemma Zdigits2_mono (x y : Z) : 0 < x ≤ y → Zdigits2 x ≤ Zdigits2 y.
Proof.
  intros [Hx Hxy].
  pose proof (Zdigits2_bounds x Hx) as [Hlo _].
  pose proof (Zdigits2_bounds y ltac:(lia)) as [_ Hhi].
  pose proof (Zdigits2_pos x Hx).
  destruct (decide (Zdigits2 x ≤ Zdigits2 y)) as [|Hn]; [done|].
  assert (2 ^ Zdigits2 y ≤ 2 ^ (Zdigits2 x - 1)) by (apply Z.pow_le_mono_r; lia). lia.
Qed.

Lemma Zdigits2_shiftr (x n : Z) :
  0 ≤ n → 0 < x / 2 ^ n → Zdigits2 (x / 2 ^ n) = Zdigits2 x - n.
Proof.
  intros Hn Hq.
  assert (0 < 2 ^ n) as Hp by (apply Z.pow_pos_nonneg; lia).
  assert (0 < x) as Hx.
  { destruct (decide (0 < x)); [done|]. 
    assert (x / 2 ^ n ≤ 0); [|lia]. apply Z.div_le_upper_bound; lia. }
  pose proof (Zdigits2_bounds x Hx) as [Hlo Hhi].
  assert (2 ^ n ≤ x) as Hge.
  { destruct (decide (2 ^ n ≤ x)); [done|]. rewrite Z.div_small in Hq; lia. }
  assert (n < Zdigits2 x) as Hnd.
  { destruct (decide (n < Zdigits2 x)); [done|].
    assert (2 ^ Zdigits2 x ≤ 2 ^ n) by (apply Z.pow_le_mono_r; lia). lia. }
  apply Zdigits2_unique; [done|]. split.
  - apply Z.div_le_lower_bound; [done|].
    rewrite <- Z.pow_add_r by lia. by replace (n + (Zdigits2 x - n - 1)) with (Zdigits2 x - 1) by lia.
  - apply Z.div_lt_upper_bound; [done|].
    rewrite <- Z.pow_add_r by lia. by replace (n + (Zdigits2 x - n)) with (Zdigits2 x) by lia.
Qed.

Lemma shr_record_of_loc_m (m : Z) (l : location) : shr_m (shr_record_of_loc m l) = m.
Proof. by destruct l as [|[]]. Qed.

Lemma shr_fexp_spec (m e : Z) (l : location) :
  0 ≤ m → e ≤ fexp prec emax (Zdigits2 m + e) →
  snd (shr_fexp prec emax m e l) = fexp prec emax (Zdigits2 m + e) ∧
  shr_m (fst (shr_fexp prec emax m e l)) = m / 2 ^ (fexp prec emax (Zdigits2 m + e) - e).
Proof.
  intros Hm He. unfold shr_fexp, shr.
  destruct (fexp prec emax (Zdigits2 m + e) - e) as [|n|n] eqn:Hn; try lia; cbn [fst snd].
  - rewrite shr_record_of_loc_m, Z.div_1_r. lia.
  - rewrite iter_shr_1_m, shr_record_of_loc_m by (by rewrite shr_record_of_loc_m). lia.
Qed.

Lemma round_nearest_even_le (m : Z) (l : location) : round_nearest_even m l ≤ m + 1.
Proof. destruct l as [|[]]; cbn; try lia. destruct (Z.even m); lia. Qed.

Lemma fexp_mono (x y : Z) : x ≤ y → fexp prec emax x ≤ fexp prec emax y.
Proof. rewrite !fexp_eq. lia. Qed.

(** The result of rounding is a number, provided the mantissa has not
    fewer digits than its exponent asks for. *)
Lemma binary_round_aux_valid (s : bool) (m e : Z) (l : location) :
  0 < m → e ≤ fexp prec emax (Zdigits2 m + e) →
  valid_binary prec emax (binary_round_aux prec emax s m e l) = true.
Proof.
  intros Hm He. unfold binary_round_aux.
  pose proof (shr_fexp_spec m e l ltac:(lia) He) as [He1 Hm1].
  destruct (shr_fexp prec emax m e l) as [r1 e1]. cbn [fst snd] in *.
  set (m1' := round_nearest_even (shr_m r1) (loc_of_shr_record r1)).
  assert (0 < 2 ^ (fexp prec emax (Zdigits2 m + e) - e)) as Hp
    by (apply Z.pow_pos_nonneg; lia).
  assert (0 ≤ shr_m r1) as Hr1 by (rewrite Hm1; apply Z.div_pos; lia).
  pose proof (round_nearest_even_ge (shr_m r1) (loc_of_shr_record r1)) as Hge.
  pose proof (round_nearest_even_le (shr_m r1) (loc_of_shr_record r1)) as Hle.
  fold m1' in Hge, Hle.
  assert (e1 ≤ fexp prec emax (Zdigits2 m1' + e1)) as He1'.
  { destruct (decide (0 < shr_m r1)) as [Hpos|Hz].
    - rewrite He1 at 1.
      replace (Zdigits2 m + e) with (Zdigits2 (shr_m r1) + e1).
      + apply fexp_mono. pose proof (Zdigits2_mono (shr_m r1) m1'). lia.
      + rewrite Hm1, Zdigits2_shiftr by lia. lia.
    - assert (shr_m r1 = 0) as Hz' by lia.
      assert (m < 2 ^ (fexp prec emax (Zdigits2 m + e) - e)) as Hlt.
      { destruct (decide (m < 2 ^ (fexp prec emax (Zdigits2 m + e) - e))); [done|].
        assert (1 ≤ m / 2 ^ (fexp prec emax (Zdigits2 m + e) - e)); [|lia].
        apply Z.div_le_lower_bound; lia. }
      pose proof (Zdigits2_bounds m Hm) as [Hlo _].
      assert (Zdigits2 m - 1 < fexp prec emax (Zdigits2 m + e) - e) as Hd.
      { destruct (decide (Zdigits2 m - 1 < fexp prec emax (Zdigits2 m + e) - e)); [done|].
        assert (2 ^ (fexp prec emax (Zdigits2 m + e) - e) ≤ 2 ^ (Zdigits2 m - 1))
          by (apply Z.pow_le_mono_r; lia). lia. }
      rewrite fexp_eq in *. lia. }
  pose proof (shr_fexp_spec m1' e1 loc_Exact ltac:(lia) He1') as [He2 Hm2].
  destruct (shr_fexp prec emax m1' e1 loc_Exact) as [r2 e2]. cbn [fst snd] in *.
  destruct (shr_m r2) as [|m2|m2] eqn:Hr2; [done| |done].
  destruct (e2 <=? emax - prec) eqn:Hle2; [|done].
  cbn [valid_binary]. unfold bounded, canonical_mantissa.
  rewrite Hle2, andb_true_r. apply Z.eqb_eq.
  change (Z.pos (digits2_pos m2)) with (Zdigits2 (Z.pos m2)).
  rewrite Hm2, Zdigits2_shiftr by lia.
  rewrite He2 at 2. f_equal. lia.
Qed.

Lemma binary_round_valid (s : bool) (m : positive) (e : Z) :
  valid_binary prec emax (binary_round prec emax s m e) = true.
Proof.
  unfold binary_round. destruct (shl_align _ _ _) as [mz ez] eqn:Hal.
  apply binary_round_aux_valid; [done|].
  set (t := fexp prec emax (Z.pos (digits2_pos m) + e)) in *.
  destruct (decide (e < t)).
  - rewrite shl_align_ge in Hal by done. injection Hal as <- <-.
    cbn [Zdigits2]. fold t. lia.
  - rewrite shl_align_spec in Hal by lia. injection Hal as <- <-.
    cbn [Zdigits2]. rewrite digits2_pos_shift by lia.
    replace (Z.pos (digits2_pos m) + (e - t) + t) with (Z.pos (digits2_pos m) + e) by lia.
    fold t. lia.
Qed.

Lemma binary_normalize_valid (m e : Z) (s : bool) :
  valid_binary prec emax (binary_normalize prec emax m e s) = true.
Proof. destruct m; [done|apply binary_round_valid..]. Qed.

Lemma SFadd_valid (a b : spec_float) :
  valid_binary prec emax a = true → valid_binary prec emax b = true →
  valid_binary prec emax (SFadd prec emax a b) = true.
Proof.
  destruct a as [sa|sa| |sa ma ea], b as [sb|sb| |sb mb eb]; intros Ha Hb;
    cbn [SFadd]; try done; try (by destruct sa, sb).
  apply binary_normalize_valid.
Qed.

Lemma SFsub_valid (a b : spec_float) :
  valid_binary prec emax a = true → valid_binary prec emax b = true →
  valid_binary prec emax (SFsub prec emax a b) = true.
Proof.
  destruct a as [sa|sa| |sa ma ea], b as [sb|sb| |sb mb eb]; intros Ha Hb;
    cbn [SFsub]; try done; try (by destruct sa, sb).
  apply binary_normalize_valid.
Qed.

Lemma SFmul_valid (a b : spec_float) :
  valid_binary prec emax a = true → valid_binary prec emax b = true →
  valid_binary prec emax (SFmul prec emax a b) = true.
Proof.
  destruct a as [sa|sa| |sa ma ea], b as [sb|sb| |sb mb eb]; intros Ha Hb;
    cbn [SFmul]; try done.
  cbn [valid_binary] in Ha, Hb.
  apply bounded_spec in Ha as [Ha _], Hb as [Hb _].
  apply binary_round_aux_valid; [done|]. rewrite fexp_eq. cbn [Zdigits2].
  pose proof (digits2_pos_bounds ma) as [Hloa Hhia].
  pose proof (digits2_pos_bounds mb) as [Hlob Hhib].
  pose proof (digits2_pos_bounds (ma * mb)) as [Hlo Hhi].
  set (da := Z.pos (digits2_pos ma)) in *. set (db := Z.pos (digits2_pos mb)) in *.
  set (d := Z.pos (digits2_pos (ma * mb))) in *.
  assert (da + db - 1 ≤ d) as Hd.
  { destruct (decide (da + db - 1 ≤ d)); [done|].
    assert (2 ^ d ≤ 2 ^ (da - 1 + (db - 1))) as Hp by (apply Z.pow_le_mono_r; lia).
    rewrite Z.pow_add_r in Hp by lia. rewrite Pos2Z.inj_mul in Hhi. nia. }
  lia.
Qed.

End Valid.

Section Order.

Lemma units_finite_lt (m1 m2 : positive) (e1 e2 : Z) :
  bounded prec emax m1 e1 = true → bounded prec emax m2 e2 = true → e1 < e2 →
  Z.pos m1 * 2 ^ (e1 + 1074) < Z.pos m2 * 2 ^ (e2 + 1074).
Proof.
  intros (He1 & Hm1 & _)%bounded_range (He2 & _ & Hm2)%bounded_range Hlt.
  specialize (Hm2 ltac:(lia)).
  assert (2 ^ (e2 + 1074) = 2 ^ (e2 - e1 - 1) * 2 * 2 ^ (e1 + 1074)) as ->.
  { replace (e2 + 1074) with (e2 - e1 - 1 + 1 + (e1 + 1074)) by lia.
    rewrite (Z.pow_add_r 2 (e2 - e1 - 1 + 1)) by lia.
    by rewrite (Z.pow_add_r 2 (e2 - e1 - 1) 1) by lia. }
  assert (0 < 2 ^ (e1 + 1074)) by (apply Z.pow_pos_nonneg; lia).
  assert (0 < 2 ^ (e2 - e1 - 1)) by (apply Z.pow_pos_nonneg; lia).
  change (2 ^ 53) with (2 ^ 52 * 2) in Hm1.
  rewrite Z.mul_assoc. apply Z.mul_lt_mono_pos_r; [done|]. nia.
Qed.

Lemma units_finite_bound (m : positive) (e : Z) :
  bounded prec emax m e = true → 0 < Z.pos m * 2 ^ (e + 1074) < 2 ^ 2098.
Proof.
  intros (He & Hm & _)%bounded_range.
  assert (0 < 2 ^ (e + 1074)) by (apply Z.pow_pos_nonneg; lia).
  assert (2 ^ (e + 1074) ≤ 2 ^ 2045) by (apply Z.pow_le_mono_r; lia).
  change (2 ^ 2098) with (2 ^ 53 * 2 ^ 2045). nia.
Qed.

Lemma units_finite_compare (m1 m2 : positive) (e1 e2 : Z) :
  bounded prec emax m1 e1 = true → bounded prec emax m2 e2 = true →
  (Z.pos m1 * 2 ^ (e1 + 1074) ?= Z.pos m2 * 2 ^ (e2 + 1074)) =
  match e1 ?= e2 with
  | Eq => Pos.compare_cont Eq m1 m2
  | c => c
  end.
Proof.
  intros H1 H2. destruct (Z.compare_spec e1 e2) as [->|Hlt|Hgt].
  - assert (0 < 2 ^ (e2 + 1074)).
    { apply bounded_range in H2. apply Z.pow_pos_nonneg; lia. }
    change (Pos.compare_cont Eq m1 m2) with (Z.pos m1 ?= Z.pos m2).
    destruct (Z.compare_spec (Z.pos m1) (Z.pos m2)) as [Heq|Hlt|Hgt].
    + rewrite Heq. apply Z.compare_refl.
    + apply Z.compare_lt_iff. by apply Z.mul_lt_mono_pos_r.
    + apply Z.compare_gt_iff. by apply Z.mul_lt_mono_pos_r.
  - apply Z.compare_lt_iff. by apply units_finite_lt.
  - apply Z.compare_gt_iff. by apply units_finite_lt.
Qed.

(** [units] orders the numbers as [SFcompare] does. *)
Lemma SFcompare_units (a b : spec_float) :
  is_number a → is_number b → is_nan a = false → is_nan b = false →
  SFcompare a b = Some (units a ?= units b).
Proof.
  unfold is_number.
  destruct a as [sa|sa| |sa ma ea], b as [sb|sb| |sb mb eb]; intros Ha Hb Hna Hnb;
    try done; cbn [valid_binary] in Ha, Hb; cbn [SFcompare units]; f_equal; symmetry;
    try pose proof (units_finite_bound _ _ Ha) as Hua;
    try pose proof (units_finite_bound _ _ Hb) as Hub;
    assert (0 < 2 ^ 2098) as Hinf by done.
  - destruct sb; cbn [cond_Zopp]; [apply Z.compare_gt_iff|apply Z.compare_lt_iff]; lia.
  - destruct sb; cbn [cond_Zopp]; [apply Z.compare_gt_iff|apply Z.compare_lt_iff]; lia.
  - destruct sa; cbn [cond_Zopp]; [apply Z.compare_lt_iff|apply Z.compare_gt_iff]; lia.
  - destruct sa, sb; cbn [cond_Zopp];
      [apply Z.compare_refl|apply Z.compare_lt_iff|apply Z.compare_gt_iff|apply Z.compare_refl];
      lia.
  - destruct sa, sb; cbn [cond_Zopp]; [apply Z.compare_lt_iff|apply Z.compare_lt_iff|
      apply Z.compare_gt_iff|apply Z.compare_gt_iff]; lia.
  - destruct sa; cbn [cond_Zopp]; [apply Z.compare_lt_iff|apply Z.compare_gt_iff]; lia.
  - destruct sa, sb; cbn [cond_Zopp]; [apply Z.compare_gt_iff|apply Z.compare_lt_iff|
      apply Z.compare_gt_iff|apply Z.compare_lt_iff]; lia.
  - destruct sa, sb; cbn [cond_Zopp].
    + rewrite Z.compare_opp, units_finite_compare by done.
      rewrite (Z.compare_antisym ea eb).
      change (Pos.compare_cont Eq mb ma) with (mb ?= ma)%positive.
      change (Pos.compare_cont Eq ma mb) with (ma ?= mb)%positive.
      rewrite (Pos.compare_antisym ma mb).
      by destruct (ea ?= eb), (ma ?= mb)%positive.
    + apply Z.compare_lt_iff; lia.
    + apply Z.compare_gt_iff; lia.
    + by apply units_finite_compare.
Qed.

End Order.

Section Arith.

Lemma has_sign_sign_of (s : bool) (a : spec_float) :
  has_sign s a → sign_of a = if s then Lt else Gt.
Proof. destruct a; cbn; try done; by intros [-> _] || by intros ->. Qed.

(** The mantissa of a finite number, aligned to a smaller exponent. *)
Lemma aligned_units (m : positive) (e ez : Z) :
  -1074 ≤ ez ≤ e →
  Z.pos (shl_align m e ez).1 * 2 ^ (ez + 1074) = Z.pos m * 2 ^ (e + 1074).
Proof.
  intros He. rewrite shl_align_spec by lia. cbn [fst].
  assert (0 < 2 ^ (e - ez)) by (apply Z.pow_pos_nonneg; lia).
  rewrite Z2Pos.id by lia. rewrite <- Z.mul_assoc, <- Z.pow_add_r by lia.
  do 2 f_equal. lia.
Qed.

Lemma cond_Zopp_mul (s : bool) (x y : Z) : cond_Zopp s x * y = cond_Zopp s (x * y).
Proof. destruct s; cbn; lia. Qed.

Lemma binary_normalize_sign (z e : Z) :
  -1074 ≤ e → sign_of (binary_normalize prec emax z e false) = (z ?= 0).
Proof.
  intros He. destruct z as [|z|z]; cbn [binary_normalize]; [done|..].
  - by rewrite (has_sign_sign_of false) by by apply binary_round_sign.
  - by rewrite (has_sign_sign_of true) by by apply binary_round_sign.
Qed.

Lemma compare_scaled (x y z c : Z) :
  0 < c → z * c = x - y → (z ?= 0) = (x ?= y).
Proof.
  intros Hc Hz. destruct (Z.compare_spec z 0), (Z.compare_spec x y); try done; nia.
Qed.

(** The sign of the difference tells the order. *)
Lemma sign_of_sub (a b : spec_float) :
  is_number a → is_number b → is_nan a = false → is_nan b = false →
  sign_of (SFsub prec emax a b) = (units a ?= units b).
Proof.
  unfold is_number.
  destruct a as [sa|sa| |sa ma ea], b as [sb|sb| |sb mb eb]; intros Ha Hb Hna Hnb;
    try done; cbn [valid_binary] in Ha, Hb; cbn [SFsub units]; symmetry;
    try pose proof (units_finite_bound _ _ Ha) as Hua;
    try pose proof (units_finite_bound _ _ Hb) as Hub;
    assert (0 < 2 ^ 2098) as Hinf by done.
  - by destruct sa, sb.
  - destruct sb; cbn [cond_Zopp sign_of negb];
      [apply Z.compare_gt_iff|apply Z.compare_lt_iff]; lia.
  - destruct sb; cbn [cond_Zopp sign_of negb];
      [apply Z.compare_gt_iff|apply Z.compare_lt_iff]; lia.
  - destruct sa; cbn [cond_Zopp sign_of negb];
      [apply Z.compare_lt_iff|apply Z.compare_gt_iff]; lia.
  - destruct sa, sb; cbn [cond_Zopp sign_of negb];
      [apply Z.compare_refl|apply Z.compare_lt_iff|apply Z.compare_gt_iff|apply Z.compare_refl];
      lia.
  - destruct sa, sb; cbn [cond_Zopp sign_of negb]; [apply Z.compare_lt_iff|apply Z.compare_lt_iff|
      apply Z.compare_gt_iff|apply Z.compare_gt_iff]; lia.
  - destruct sa; cbn [cond_Zopp sign_of negb];
      [apply Z.compare_lt_iff|apply Z.compare_gt_iff]; lia.
  - destruct sa, sb; cbn [cond_Zopp sign_of negb]; [apply Z.compare_gt_iff|apply Z.compare_lt_iff|
      apply Z.compare_gt_iff|apply Z.compare_lt_iff]; lia.
  - pose proof (bounded_range _ _ Ha) as (Hea & _). pose proof (bounded_range _ _ Hb) as (Heb & _).
    rewrite binary_normalize_sign by lia. symmetry.
    apply compare_scaled with (2 ^ (Z.min ea eb + 1074)).
    + apply Z.pow_pos_nonneg; lia.
    + rewrite Z.mul_sub_distr_r, !cond_Zopp_mul, !aligned_units by lia. done.
Qed.

(** Numbers of the same value are the same number, the two zeros apart. *)
Lemma units_inj (a b : spec_float) :
  is_number a → is_number b → is_nan a = false → is_nan b = false →
  units a = units b → same_value a b.
Proof.
  unfold is_number, same_value.
  destruct a as [sa|sa| |sa ma ea], b as [sb|sb| |sb mb eb]; intros Ha Hb Hna Hnb;
    try done; cbn [valid_binary] in Ha, Hb; cbn [units is_zero];
    try pose proof (units_finite_bound _ _ Ha) as Hua;
    try pose proof (units_finite_bound _ _ Hb) as Hub;
    assert (0 < 2 ^ 2098) as Hinf by done; intros Hu.
  - by right.
  - destruct sb; cbn [cond_Zopp] in Hu; lia.
  - destruct sb; cbn [cond_Zopp] in Hu; lia.
  - destruct sa; cbn [cond_Zopp] in Hu; lia.
  - left. destruct sa, sb; cbn [cond_Zopp] in Hu; try done; lia.
  - destruct sa, sb; cbn [cond_Zopp] in Hu; lia.
  - destruct sa; cbn [cond_Zopp] in Hu; lia.
  - destruct sa, sb; cbn [cond_Zopp] in Hu; lia.
  - left. assert (sa = sb) as -> by (destruct sa, sb; cbn [cond_Zopp] in Hu; try done; lia).
    assert (Z.pos ma * 2 ^ (ea + 1074) = Z.pos mb * 2 ^ (eb + 1074)) as Hu'
      by (destruct sb; cbn [cond_Zopp] in Hu; lia).
    pose proof (units_finite_compare ma mb ea eb Ha Hb) as Hc.
    rewrite Hu', Z.compare_refl in Hc.
    destruct (Z.compare_spec ea eb) as [->| |]; try done.
    symmetry in Hc. apply Pos.compare_eq in Hc as ->. done.
Qed.







Lemma of_Z_1 : of_Z 1 = S754_finite false 4503599627370496 (-52).
Proof. reflexivity. Qed.

Lemma of_Z_0 : of_Z 0 = S754_zero false.
Proof. reflexivity. Qed.

(** [a * 1] is [a]. *)
Lemma mul_1_r (a : spec_float) : is_number a → mul a (of_Z 1) = a.
Proof.
  unfold is_number. rewrite of_Z_1. intros Ha.
  destruct a as [sa|sa| |sa ma ea]; cbn [mul SFmul]; [by destruct sa..|done|].
  replace (xorb sa false) with sa by by destruct sa.
  rewrite Pos2Z.inj_mul. change (Z.pos 4503599627370496) with (2 ^ 52).
  by apply (binary_round_aux_exact sa ma ea 52).
Qed.

(** [a * 0] is a zero when [a] is finite, and [NaN] otherwise. *)
Lemma mul_0_r (a : spec_float) :
  mul a (of_Z 0) = times_zero a.
Proof. rewrite of_Z_0. by destruct a as [[]|[]| |[] ? ?]. Qed.

End Arith.

Section Closure.

Lemma add_is_number (a b : spec_float) :
  is_number a → is_number b → is_number (Number.add a b).
Proof. apply SFadd_valid. Qed.

Lemma mul_is_number (a b : spec_float) :
  is_number a → is_number b → is_number (Number.mul a b).
Proof. apply SFmul_valid. Qed.

Lemma sub_is_number (a b : spec_float) :
  is_number a → is_number b → is_number (Number.sub a b).
Proof. apply SFsub_valid. Qed.

Lemma of_Z_is_number (z : Z) : is_number (of_Z z).
Proof. apply binary_normalize_valid. Qed.


Lemma le_units (a b : spec_float) :
  is_number a → is_number b → is_nan a = false → is_nan b = false →
  Number.le a b = true ↔ units a ≤ units b.
Proof.
  intros Ha Hb Hna Hnb. unfold Number.le, SFleb.
  rewrite SFcompare_units by done.
  destruct (Z.compare_spec (units a) (units b)); split; intros; try done; lia.
Qed.

Lemma gt_units (a b : spec_float) :
  is_number a → is_number b → is_nan a = false → is_nan b = false →
  Number.gt a b = true ↔ units b < units a.
Proof.
  intros Ha Hb Hna Hnb. unfold Number.gt, SFltb.
  rewrite SFcompare_units by done.
  destruct (Z.compare_spec (units b) (units a)); split; intros; try done; lia.
Qed.

Lemma same_value_refl (a : spec_float) : same_value a a.
Proof. by left. Qed.

End Closure.

(** ** The error of a rounding *)

Section Error.









End Error.

(** * Facts about sorting *)

Section Sorting.

Context (comparefn : spec_float → spec_float → spec_float).

Lemma insert_sorted_Permutation (x : spec_float) (l : list spec_float) :
  insert_sorted comparefn x l ≡ₚ x :: l.
Proof.
  induction l as [|y l IH]; cbn [insert_sorted]; [done|].
  destruct (SortCompare comparefn x y); try done.
  by rewrite IH, Permutation_swap.
Qed.

Lemma sort_list_Permutation (l : list spec_float) : sort_list comparefn l ≡ₚ l.
Proof.
  induction l as [|x l IH]; cbn [sort_list]; [done|].
  by rewrite insert_sorted_Permutation, IH.
Qed.

Lemma sort_list_length (l : list spec_float) :
  length (sort_list comparefn l) = length l.
Proof. apply Permutation_length, sort_list_Permutation. Qed.

(** The comparator orders the elements satisfying [P] by their [key]. *)
Context (P : spec_float → Prop) (key : spec_float → Z).
Hypothesis consistent :
  ∀ a b, P a → P b → SortCompare comparefn a b = (key a ?= key b).

Lemma insert_sorted_sorted (x : spec_float) (l : list spec_float) :
  P x → Forall P l →
  StronglySorted (λ a b, key a ≤ key b) l →
  StronglySorted (λ a b, key a ≤ key b) (insert_sorted comparefn x l).
Proof.
  intros Hx Hl. induction 1 as [|y l Hs IH Hy]; cbn [insert_sorted].
  - repeat constructor.
  - apply Forall_cons in Hl as [HPy Hl].
    rewrite consistent by done.
    destruct (Z.compare_spec (key x) (key y)) as [Heq|Hlt|Hgt].
    + constructor; [by constructor|]. constructor; [lia|].
      eapply Forall_impl; [exact Hy|]. cbn. lia.
    + constructor; [by constructor|]. constructor; [lia|].
      eapply Forall_impl; [exact Hy|]. cbn. lia.
    + constructor; [by apply IH|].
      rewrite insert_sorted_Permutation. constructor; [lia|done].
Qed.

Lemma sort_list_sorted (l : list spec_float) :
  Forall P l → StronglySorted (λ a b, key a ≤ key b) (sort_list comparefn l).
Proof.
  induction l as [|x l IH]; cbn [sort_list]; intros Hl; [constructor|].
  apply Forall_cons in Hl as [Hx Hl].
  apply insert_sorted_sorted; [done| |by apply IH].
  by rewrite sort_list_Permutation.
Qed.

End Sorting.

Section SortedInput.

Context (comparefn : spec_float → spec_float → spec_float).
Context (P : spec_float → Prop) (key : spec_float → Z).
Hypothesis consistent :
  ∀ a b, P a → P b → SortCompare comparefn a b = (key a ?= key b).

(** An element not above the first one is put in front. *)
Lemma insert_sorted_head (x : spec_float) (l : list spec_float) :
  P x → Forall P l → Forall (λ z, key x ≤ key z) l →
  insert_sorted comparefn x l = x :: l.
Proof.
  intros Hx Hl Hle. destruct l as [|y l]; [done|]. cbn [insert_sorted].
  apply Forall_cons in Hl as [Hy _], Hle as [Hxy _].
  rewrite consistent by done.
  by destruct (Z.compare_spec (key x) (key y)); try lia.
Qed.

(** Sorting leaves a sorted sequence as it is. *)
Lemma sort_list_sorted_id (l : list spec_float) :
  Forall P l → StronglySorted (λ a b, key a ≤ key b) l → sort_list comparefn l = l.
Proof.
  intros Hl. induction 1 as [|x l Hs IH Hx]; [done|]. cbn [sort_list].
  apply Forall_cons in Hl as [HPx Hl]. rewrite IH by done.
  by apply insert_sorted_head.
Qed.

Lemma sort_list_idempotent (l : list spec_float) :
  Forall P l → sort_list comparefn (sort_list comparefn l) = sort_list comparefn l.
Proof.
  intros Hl. apply sort_list_sorted_id.
  - by rewrite sort_list_Permutation.
  - by apply (sort_list_sorted comparefn P key).
Qed.

Context (Q : spec_float → Prop) `{∀ x, Decision (Q x)}.

Lemma filter_insert_sorted (x : spec_float) (l : list spec_float) :
  P x → Forall P l → StronglySorted (λ a b, key a ≤ key b) l →
  filter Q (insert_sorted comparefn x l) =
  if decide (Q x) then insert_sorted comparefn x (filter Q l) else filter Q l.
Proof.
  intros Hx Hl. induction 1 as [|y l Hs IH Hy]; cbn [insert_sorted].
  - rewrite filter_cons, filter_nil. by destruct (decide (Q x)).
  - apply Forall_cons in Hl as [HPy Hl].
    rewrite consistent by done.
    assert (Forall P (filter Q (y :: l))) as HPf.
    { rewrite Forall_forall. intros z [_ Hz]%list_elem_of_filter.
      apply elem_of_cons in Hz as [->|Hz]; [done|].
      rewrite Forall_forall in Hl. by apply Hl. }
    destruct (Z.compare_spec (key x) (key y)) as [Heq|Hlt|Hgt].
    + rewrite (filter_cons Q x). destruct (decide (Q x)); [|done].
      symmetry. apply insert_sorted_head; [done..|].
      rewrite Forall_forall. intros z [_ Hz]%list_elem_of_filter.
      apply elem_of_cons in Hz as [->|Hz]; [lia|].
      rewrite Forall_forall in Hy. specialize (Hy z Hz). cbn in Hy. lia.
    + rewrite (filter_cons Q x). destruct (decide (Q x)); [|done].
      symmetry. apply insert_sorted_head; [done..|].
      rewrite Forall_forall. intros z [_ Hz]%list_elem_of_filter.
      apply elem_of_cons in Hz as [->|Hz]; [lia|].
      rewrite Forall_forall in Hy. specialize (Hy z Hz). cbn in Hy. lia.
    + rewrite (filter_cons Q y), IH by done. rewrite (filter_cons Q y).
      destruct (decide (Q x)), (decide (Q y)); try done.
      cbn [insert_sorted]. rewrite consistent by done.
      by destruct (Z.compare_spec (key x) (key y)); try lia.
Qed.

(** Filtering the sorted sequence is sorting the filtered one. *)
Lemma filter_sort_list (l : list spec_float) :
  Forall P l →
  filter Q (sort_list comparefn l) = sort_list comparefn (filter Q l).
Proof.
  induction l as [|x l IH]; intros Hl; [done|]. cbn [sort_list].
  apply Forall_cons in Hl as [Hx Hl].
  rewrite filter_insert_sorted; [|done| |].
  - rewrite filter_cons. destruct (decide (Q x)); cbn [sort_list]; by rewrite IH.
  - by rewrite sort_list_Permutation.
  - by apply (sort_list_sorted comparefn P key).
Qed.

End SortedInput.

Section NumericOrder.

Lemma comparator_units (ascending : bool) (a b : spec_float) :
  ordered_number a → ordered_number b →
  SortCompare (DataProcessor.comparator ascending) a b =
  if ascending then units a ?= units b else (- units a ?= - units b).
Proof.
  intros [Ha Hna] [Hb Hnb]. unfold SortCompare, DataProcessor.comparator.
  destruct ascending.
  - by apply sign_of_sub.
  - rewrite Z.compare_opp. by apply sign_of_sub.
Qed.

Lemma StronglySorted_on {A} (Q : A → Prop) (R R' : relation A) (l : list A) :
  (∀ a b, Q a → Q b → R a b → R' a b) →
  Forall Q l → StronglySorted R l → StronglySorted R' l.
Proof.
  intros HR Hl. induction 1 as [|x l Hs IH Hx]; [constructor|].
  apply Forall_cons in Hl as [HQx Hl]. constructor; [by apply IH|].
  rewrite Forall_forall in *. naive_solver.
Qed.

Lemma sort_list_in_order (ascending : bool) (l : list spec_float) :
  Forall ordered_number l →
  StronglySorted (in_order ascending)
    (sort_list (DataProcessor.comparator ascending) l).
Proof.
  intros Hl.
  apply StronglySorted_on with (Q := ordered_number)
    (R := λ a b, (if ascending then units a else - units a)
                 ≤ (if ascending then units b else - units b)).
  - intros a b [Ha Hna] [Hb Hnb] Hab. unfold in_order.
    destruct ascending; apply le_units; try done; lia.
  - by rewrite sort_list_Permutation.
  - apply sort_list_sorted with (P := ordered_number); [|done].
    intros a b Ha Hb. rewrite comparator_units by done. by destruct ascending.
Qed.

Lemma units_same_value (g : Z → Z) (l k : list spec_float) :
  (∀ x y, g x = g y → x = y) →
  Forall ordered_number l → Forall ordered_number k →
  (λ a, g (units a)) <$> l = (λ a, g (units a)) <$> k → Forall2 same_value l k.
Proof.
  intros Hg. revert k. induction l as [|a l IH]; intros [|b k] Hl Hk Heq; try done.
  apply Forall_cons in Hl as [[Ha Hna] Hl], Hk as [[Hb Hnb] Hk].
  injection Heq as Hab Heq. constructor; [apply units_inj; auto|by apply IH].
Qed.

(** Sorting downwards what was sorted upwards reverses it, up to the order
    of the two zeros. *)
Lemma sort_list_descending_ascending (l : list spec_float) :
  Forall ordered_number l →
  Forall2 same_value
    (sort_list (DataProcessor.comparator false)
       (sort_list (DataProcessor.comparator true) l))
    (reverse (sort_list (DataProcessor.comparator true) l)).
Proof.
  intros Hl. set (s := sort_list (DataProcessor.comparator true) l).
  assert (Forall ordered_number s) as Hs by (unfold s; by rewrite sort_list_Permutation).
  assert (StronglySorted (λ a b, units a ≤ units b) s) as Hup.
  { apply (sort_list_sorted _ ordered_number units); [|done].
    intros a b Ha Hb. by rewrite (comparator_units true). }
  assert (StronglySorted (λ a b, - units a ≤ - units b)
            (sort_list (DataProcessor.comparator false) s)) as Hdown.
  { apply (sort_list_sorted _ ordered_number (λ a, - units a)); [|done].
    intros a b Ha Hb. by rewrite (comparator_units false). }
  apply (units_same_value Z.opp); [lia|by rewrite sort_list_Permutation|
    by rewrite reverse_Permutation|].
  apply (StronglySorted_unique Z.le).
  - by apply (StronglySorted_fmap _ (λ a b, - units a ≤ - units b) Z.le).
  - apply (StronglySorted_fmap _ (flip (λ a b, units a ≤ units b)) Z.le).
    + unfold flip. lia.
    + apply Sorted_StronglySorted.
      * intros a b c. unfold flip. lia.
      * by apply Sorted_reverse, StronglySorted_Sorted.
  - by rewrite sort_list_Permutation, reverse_Permutation.
Qed.

(** Any numerically sorted arrangement of the elements is the one the model
    of the host's sort gives, up to the order of the two zeros. *)
Lemma sort_list_unique (ascending : bool) (l l' : list spec_float) :
  Forall ordered_number l → l' ≡ₚ l → StronglySorted (in_order ascending) l' →
  Forall2 same_value l' (sort_list (DataProcessor.comparator ascending) l).
Proof.
  intros Hl Hperm Hsorted.
  assert (Forall ordered_number l') as Hl' by by rewrite Hperm.
  set (g := λ z : Z, if ascending then z else - z).
  apply (units_same_value g); [unfold g; destruct ascending; lia|done|
    by rewrite sort_list_Permutation|].
  apply (StronglySorted_unique Z.le).
  - apply (StronglySorted_fmap _ (λ a b, g (units a) ≤ g (units b)) Z.le); [done|].
    apply (StronglySorted_on ordered_number (in_order ascending)); [|done..].
    intros a b [Ha Hna] [Hb Hnb]. unfold in_order, g.
    destruct ascending; rewrite le_units by done; lia.
  - apply (StronglySorted_fmap _ (λ a b, g (units a) ≤ g (units b)) Z.le); [done|].
    apply (sort_list_sorted _ ordered_number (λ a, g (units a))); [|done].
    intros a b Ha Hb. rewrite comparator_units by done. unfold g.
    by destruct ascending.
  - by rewrite Hperm, sort_list_Permutation.
Qed.

Lemma comparator_consistent (ascending : bool) (a b : spec_float) :
  ordered_number a → ordered_number b →
  SortCompare (DataProcessor.comparator ascending) a b =
  ((if ascending then units a else - units a)
   ?= (if ascending then units b else - units b)).
Proof. intros Ha Hb. rewrite comparator_units by done. by destruct ascending. Qed.

(** The sort is stable: the two zeros, the only different numbers that
    compare equal, stay in the order they came in. *)
Lemma sort_list_zeros (ascending : bool) (l : list spec_float) :
  Forall ordered_number l →
  filter (λ e, is_zero e = true) (sort_list (DataProcessor.comparator ascending) l)
  = filter (λ e, is_zero e = true) l.
Proof.
  intros Hl.
  rewrite (filter_sort_list _ ordered_number
    (λ a, if ascending then units a else - units a));
    [|intros a b; apply comparator_consistent|done].
  apply (sort_list_sorted_id _ ordered_number
    (λ a, if ascending then units a else - units a));
    [intros a b; apply comparator_consistent| |].
  - rewrite Forall_forall in *. intros e [_ He]%list_elem_of_filter. by apply Hl.
  - assert (Forall (λ e, (if ascending then units e else - units e) = 0)
              (filter (λ e, is_zero e = true) l)) as Hz.
    { rewrite Forall_forall. intros e [He _]%list_elem_of_filter.
      destruct e; try done. by destruct ascending. }
    induction Hz as [|e k He Hk IH]; constructor; [done|].
    eapply Forall_impl; [exact Hk|]. cbn. intros e' He'. lia.
Qed.

End NumericOrder.


(** * Facts about the store *)

Section Store.

Lemma contents_Some (h : heap) (p : pref) (l : list spec_float) :
  contents h p = Some l ↔ ∃ d, procs h !! p = Some d ∧ arrays h !! d = Some l.
Proof.
  unfold contents. destruct (procs h !! p) as [d|]; cbn.
  - split; [by exists d|]. by intros (? & [= <-] & ?).
  - split; [done|]. by intros (? & ? & _).
Qed.

Lemma fresh_array (h : heap) : arrays h !! fresh (dom (arrays h)) = None.
Proof. apply not_elem_of_dom, is_fresh. Qed.

Lemma fresh_proc (h : heap) : procs h !! fresh (dom (procs h)) = None.
Proof. apply not_elem_of_dom, is_fresh. Qed.

Lemma contents_with_data (h : heap) (p : pref) (l : list spec_float) :
  contents (with_data p l h) p = Some l.
Proof.
  unfold contents, with_data. cbn. rewrite lookup_insert_eq. cbn.
  by rewrite lookup_insert_eq.
Qed.

(** Replacing the data of [p] leaves every other processor as it was. *)
Lemma contents_with_data_ne (h : heap) (p q : pref) (l lq : list spec_float) :
  p ≠ q → contents h q = Some lq → contents (with_data p l h) q = Some lq.
Proof.
  intros Hne (d & Hq & Hd)%contents_Some. apply contents_Some. exists d.
  unfold with_data. cbn. rewrite lookup_insert_ne by done. split; [done|].
  rewrite lookup_insert_ne; [done|]. intros Heq.
  by rewrite <- Heq, fresh_array in Hd.
Qed.

Lemma procs_with_data (h : heap) (p : pref) (l l0 : list spec_float) :
  contents h p = Some l0 → dom (procs (with_data p l h)) = dom (procs h).
Proof.
  intros (d & Hp & _)%contents_Some. unfold with_data. cbn.
  rewrite dom_insert_L. apply elem_of_dom_2 in Hp.
  apply leibniz_equiv. intros q. rewrite elem_of_union, elem_of_singleton.
  split; [by intros [->|]|by right].
Qed.

(** A method that replaces [this.data] by [g] of its contents. *)
Lemma replace_run (g : list spec_float → list spec_float) (step : aref → Js aref)
    (h : heap) (this : pref) (l : list spec_float) :
  (∀ d h0, step d h0 = (l0 ← read d; alloc (g l0)) h0) →
  contents h this = Some l →
  (d ← get_data this; d' ← step d; _ ← put_data this d'; mret this) h
  = Some (this, with_data this (g l) h).
Proof.
  intros Hstep (d & Hp & Hd)%contents_Some.
  unfold mbind, Js_bind, get_data. rewrite Hp, Hstep.
  unfold mbind, Js_bind, read, alloc, put_data. rewrite Hd. cbn. by rewrite Hp.
Qed.

Lemma add_run (h : heap) (this : pref) (l : list spec_float) (value : spec_float) :
  contents h this = Some l →
  DataProcessor.add this value h
  = Some (this, with_data this (map (λ item, Number.add item value) l) h).
Proof. by apply (replace_run (map (λ item, Number.add item value))). Qed.

Lemma multiply_run (h : heap) (this : pref) (l : list spec_float) (value : spec_float) :
  contents h this = Some l →
  DataProcessor.multiply this value h
  = Some (this, with_data this (map (λ item, Number.mul item value) l) h).
Proof. by apply (replace_run (map (λ item, Number.mul item value))). Qed.

Lemma filterGreaterThan_run (h : heap) (this : pref) (l : list spec_float)
    (threshold : spec_float) :
  contents h this = Some l →
  DataProcessor.filterGreaterThan this threshold h
  = Some (this, with_data this (filter (λ item, Number.gt item threshold = true) l) h).
Proof.
  by apply (replace_run (filter (λ item, Number.gt item threshold = true))).
Qed.

Lemma sort_run (h : heap) (this : pref) (d : aref) (l : list spec_float)
    (ascending : bool) :
  procs h !! this = Some d → arrays h !! d = Some l →
  DataProcessor.sort this ascending h
  = Some (this, set_arrays <[d := sort_list (DataProcessor.comparator ascending) l]> h).
Proof.
  intros Hp Hd. unfold DataProcessor.sort, Array_sort, mbind, Js_bind, get_data.
  rewrite Hp. unfold read, write. by rewrite Hd, Hd.
Qed.

Lemma getResult_run (h : heap) (this : pref) (l : list spec_float) :
  contents h this = Some l →
  DataProcessor.getResult this h
  = Some (fresh (dom (arrays h)), set_arrays <[fresh (dom (arrays h)) := l]> h).
Proof.
  intros (d & Hp & Hd)%contents_Some.
  unfold DataProcessor.getResult, spread, mbind, Js_bind, get_data.
  rewrite Hp. unfold read, alloc. by rewrite Hd.
Qed.

(** *** Independence of the timers *)

Lemma timer_blind_ret {A} (a : A) : timer_blind (mret a : Js A).
Proof. done. Qed.

Lemma timer_blind_bind {A B} (m : Js A) (k : A → Js B) :
  timer_blind m → (∀ a, timer_blind (k a)) → timer_blind (m ≫= k).
Proof.
  intros Hm Hk f h. unfold mbind, Js_bind. rewrite Hm.
  destruct (m h) as [[a h']|]; cbn; [apply Hk|done].
Qed.

Lemma timer_blind_read (a : aref) : timer_blind (read a).
Proof. intros f h. unfold read. cbn. by destruct (arrays h !! a). Qed.

Lemma timer_blind_alloc (l : list spec_float) : timer_blind (alloc l).
Proof. done. Qed.

Lemma timer_blind_write (a : aref) (l : list spec_float) : timer_blind (write a l).
Proof. intros f h. unfold write. cbn. by destruct (arrays h !! a). Qed.

Lemma timer_blind_get_data (p : pref) : timer_blind (get_data p).
Proof. intros f h. unfold get_data. cbn. by destruct (procs h !! p). Qed.

Lemma timer_blind_put_data (p : pref) (d : aref) : timer_blind (put_data p d).
Proof. intros f h. unfold put_data. cbn. by destruct (procs h !! p). Qed.

Lemma timer_blind_new_proc (d : aref) : timer_blind (new_proc d).
Proof. done. Qed.

Lemma outcome_timer_blind {A} (m : Js A) (f : list spec_float → list spec_float) (h : heap) :
  timer_blind m → outcome (m (set_timers f h)) = outcome (m h).
Proof. intros ->. unfold outcome. by destruct (m h) as [[a h']|]. Qed.

End Store.

Create HintDb blind.
#[global] Hint Resolve timer_blind_ret timer_blind_read timer_blind_alloc
  timer_blind_write timer_blind_get_data timer_blind_put_data
  timer_blind_new_proc : blind.

Ltac blind :=
  repeat first
    [ apply timer_blind_bind; [|intros ?]
    | solve [auto with blind]
    | match goal with |- timer_blind (match ?x with _ => _ end) => destruct x end ].

Section Blind.

Lemma timer_blind_add (this : pref) (value : spec_float) :
  timer_blind (DataProcessor.add this value).
Proof. unfold DataProcessor.add, Array_map. blind. Qed.

Lemma timer_blind_multiply (this : pref) (value : spec_float) :
  timer_blind (DataProcessor.multiply this value).
Proof. unfold DataProcessor.multiply, Array_map. blind. Qed.

Lemma timer_blind_filterGreaterThan (this : pref) (threshold : spec_float) :
  timer_blind (DataProcessor.filterGreaterThan this threshold).
Proof. unfold DataProcessor.filterGreaterThan, Array_filter. blind. Qed.

Lemma timer_blind_getResult (this : pref) : timer_blind (DataProcessor.getResult this).
Proof. unfold DataProcessor.getResult, spread. blind. Qed.

Lemma timer_blind_constructor (initialData : option aref) :
  timer_blind (DataProcessor.constructor initialData).
Proof. unfold DataProcessor.constructor, spread. blind. Qed.

End Blind.

(** * Numbers stay numbers *)

Section Invariant.

(** Every method keeps the elements of the sequence among the values a
    [number] can take. *)
Lemma numbers_invariant (h : heap) (this : pref) (l : list spec_float)
    (value : spec_float) (ascending : bool) :
  contents h this = Some l → Forall is_number l → is_number value →
  ∀ m, m ∈ [DataProcessor.add this value; DataProcessor.multiply this value;
            DataProcessor.filterGreaterThan this value;
            DataProcessor.sort this ascending] →
  ∃ h' l', m h = Some (this, h') ∧ contents h' this = Some l' ∧ Forall is_number l'.
Proof.
  intros Hl Hnum Hv m Hm.
  repeat (apply elem_of_cons in Hm as [->|Hm]); [..|by apply elem_of_nil in Hm].
  - eexists _, _. split; [by apply add_run|]. split; [apply contents_with_data|].
    apply Forall_forall. intros e (e0 & <- & He0)%list_elem_of_In%in_map_iff.
    apply add_is_number; [|done]. rewrite Forall_forall in Hnum.
    by apply Hnum, list_elem_of_In.
  - eexists _, _. split; [by apply multiply_run|]. split; [apply contents_with_data|].
    apply Forall_forall. intros e (e0 & <- & He0)%list_elem_of_In%in_map_iff.
    apply mul_is_number; [|done]. rewrite Forall_forall in Hnum.
    by apply Hnum, list_elem_of_In.
  - eexists _, _. split; [by apply filterGreaterThan_run|].
    split; [apply contents_with_data|].
    rewrite Forall_forall in *. intros e [_ He]%list_elem_of_filter. by apply Hnum.
  - pose proof Hl as (d & Hp & Hd)%contents_Some.
    eexists _, _. split; [by eapply sort_run|]. split.
    + apply contents_Some. exists d. cbn. split; [done|apply lookup_insert_eq].
    + by rewrite sort_list_Permutation.
Qed.

End Invariant.

(** * The scenarios of the test suite *)

Example scenario_1 :
  result_of (a ← alloc (nums [1; 2; 3]);
             p ← createProcessor (Some a);
             p ← DataProcessor.add p (of_Z 5);
             DataProcessor.multiply p (of_Z 2)) empty_heap
  = Some (nums [12; 14; 16]).
Proof. vm_compute. reflexivity. Qed.

Example scenario_2 :
  result_of (a ← alloc (nums [5; 10; 15; 20; 25]);
             p ← createProcessor (Some a);
             p ← DataProcessor.add p (of_Z 5);
             p ← DataProcessor.multiply p (of_Z 2);
             p ← DataProcessor.filterGreaterThan p (of_Z 35);
             DataProcessor.sort p false) empty_heap
  = Some (nums [60; 50; 40]).
Proof. vm_compute. reflexivity. Qed.

Example scenario_3 :
  result_of (a ← alloc (nums [1; 2; 3]);
             p ← createProcessorAsync (Some a) default_create_delay;
             p ← DataProcessor.addAsync p (of_Z 5) default_delay;
             DataProcessor.multiplyAsync p (of_Z 2) default_delay) empty_heap
  = Some (nums [12; 14; 16]).
Proof. vm_compute. reflexivity. Qed.

(** * The properties of the specification *)

(** C1: each suspending variant ([addAsync], [multiplyAsync],
    [filterGreaterThanAsync], [getResultAsync], [createProcessorAsync])
    returns what its immediate counterpart returns and leaves the arrays and
    the processors as the counterpart leaves them, from every store and for
    every parameter and delay; the delay only shows in the record of
    timers. *)
Theorem async_same_as_sync (h : heap) (this : pref) (value delayMs : spec_float)
    (initialData : option aref) :
  outcome (DataProcessor.addAsync this value delayMs h)
    = outcome (DataProcessor.add this value h) ∧
  outcome (DataProcessor.multiplyAsync this value delayMs h)
    = outcome (DataProcessor.multiply this value h) ∧
  outcome (DataProcessor.filterGreaterThanAsync this value delayMs h)
    = outcome (DataProcessor.filterGreaterThan this value h) ∧
  outcome (DataProcessor.getResultAsync this delayMs h)
    = outcome (DataProcessor.getResult this h) ∧
  outcome (createProcessorAsync initialData delayMs h)
    = outcome (createProcessor initialData h).
Proof.
  repeat split.
  - apply (outcome_timer_blind (DataProcessor.add this value)), timer_blind_add.
  - apply (outcome_timer_blind (DataProcessor.multiply this value)), timer_blind_multiply.
  - apply (outcome_timer_blind (DataProcessor.filterGreaterThan this value)),
      timer_blind_filterGreaterThan.
  - apply (outcome_timer_blind (DataProcessor.getResult this)), timer_blind_getResult.
  - apply (outcome_timer_blind (DataProcessor.constructor initialData)),
      timer_blind_constructor.
Qed.

(** C2: [add(value)] replaces each element [e] of the sequence by
    [e + value], [multiply(value)] by [e * value]; both return the instance
    they were called on and create no other. *)
Theorem add_multiply_spec (h : heap) (this : pref) (l : list spec_float)
    (value : spec_float) :
  contents h this = Some l →
  (∃ h', DataProcessor.add this value h = Some (this, h') ∧
         contents h' this = Some (map (λ e, Number.add e value) l) ∧
         dom (procs h') = dom (procs h)) ∧
  (∃ h', DataProcessor.multiply this value h = Some (this, h') ∧
         contents h' this = Some (map (λ e, Number.mul e value) l) ∧
         dom (procs h') = dom (procs h)).
Proof.
  intros Hl. split; eexists; (split; [by (apply add_run || apply multiply_run)|]).
  - split; [apply contents_with_data|by eapply procs_with_data].
  - split; [apply contents_with_data|by eapply procs_with_data].
Qed.

Lemma add_multiply_spec_witness :
  contents (fresh_processor (nums [1; 2; 3])).2 (fresh_processor (nums [1; 2; 3])).1
    = Some (nums [1; 2; 3]) ∧
  ∃ h', DataProcessor.add (fresh_processor (nums [1; 2; 3])).1 (of_Z 5)
          (fresh_processor (nums [1; 2; 3])).2
        = Some ((fresh_processor (nums [1; 2; 3])).1, h') ∧
        contents h' (fresh_processor (nums [1; 2; 3])).1 = Some (nums [6; 7; 8]).
Proof.
  split; [reflexivity|].
  destruct (add_multiply_spec (fresh_processor (nums [1; 2; 3])).2
    (fresh_processor (nums [1; 2; 3])).1 (nums [1; 2; 3]) (of_Z 5) eq_refl)
    as [(h' & Hrun & Hl & _) _].
  exists h'. split; [exact Hrun|exact Hl].
Defined.

(** C3: [filterGreaterThan(t)] keeps exactly the elements strictly greater
    than [t]: the result is the sequence filtered by [> t], it is not longer
    than the input, its elements are those of the input that are [> t], and
    they come in the order they had. *)
Theorem filterGreaterThan_spec (h : heap) (this : pref) (l : list spec_float)
    (t : spec_float) :
  contents h this = Some l →
  ∃ h' l', DataProcessor.filterGreaterThan this t h = Some (this, h') ∧
           contents h' this = Some l' ∧
           l' = filter (λ e, Number.gt e t = true) l ∧
           (length l' ≤ length l)%nat ∧
           (∀ e, e ∈ l' ↔ e ∈ l ∧ Number.gt e t = true) ∧
           l' `sublist_of` l.
Proof.
  intros Hl. eexists _, _. split; [by apply filterGreaterThan_run|].
  split; [apply contents_with_data|]. split; [done|]. split; [apply length_filter|].
  split; [|apply sublist_filter]. intros e. rewrite list_elem_of_filter. tauto.
Qed.

Lemma filterGreaterThan_spec_witness :
  contents (fresh_processor (nums [20; 30; 40; 50; 60])).2
           (fresh_processor (nums [20; 30; 40; 50; 60])).1
    = Some (nums [20; 30; 40; 50; 60]) ∧
  ∃ h', DataProcessor.filterGreaterThan (fresh_processor (nums [20; 30; 40; 50; 60])).1
          (of_Z 35) (fresh_processor (nums [20; 30; 40; 50; 60])).2
        = Some ((fresh_processor (nums [20; 30; 40; 50; 60])).1, h') ∧
        contents h' (fresh_processor (nums [20; 30; 40; 50; 60])).1
        = Some (nums [40; 50; 60]).
Proof.
  split; [reflexivity|].
  destruct (filterGreaterThan_spec (fresh_processor (nums [20; 30; 40; 50; 60])).2
    (fresh_processor (nums [20; 30; 40; 50; 60])).1 (nums [20; 30; 40; 50; 60])
    (of_Z 35) eq_refl) as (h' & l' & Hrun & Hl & -> & _).
  exists h'. split; [exact Hrun|exact Hl].
Defined.

(** C9: [add(value)] and [multiply(value)] keep the number of elements;
    [filterGreaterThan] never increases it and [sort] keeps it, so that no
    operation makes the sequence grow. *)
Theorem length_preserved (h : heap) (this : pref) (l : list spec_float)
    (value : spec_float) (ascending : bool) :
  contents h this = Some l →
  (∃ h' l', DataProcessor.add this value h = Some (this, h') ∧
            contents h' this = Some l' ∧ length l' = length l) ∧
  (∃ h' l', DataProcessor.multiply this value h = Some (this, h') ∧
            contents h' this = Some l' ∧ length l' = length l) ∧
  (∃ h' l', DataProcessor.filterGreaterThan this value h = Some (this, h') ∧
            contents h' this = Some l' ∧ (length l' ≤ length l)%nat) ∧
  (∃ h' l', DataProcessor.sort this ascending h = Some (this, h') ∧
            contents h' this = Some l' ∧ length l' = length l).
Proof.
  intros Hl. repeat split.
  - eexists _, _. split; [by apply add_run|].
    split; [apply contents_with_data|apply length_map].
  - eexists _, _. split; [by apply multiply_run|].
    split; [apply contents_with_data|apply length_map].
  - eexists _, _. split; [by apply filterGreaterThan_run|].
    split; [apply contents_with_data|apply length_filter].
  - pose proof Hl as (d & Hp & Hd)%contents_Some.
    eexists _, _. split; [by eapply sort_run|]. split.
    + apply contents_Some. exists d. cbn. split; [done|apply lookup_insert_eq].
    + apply sort_list_length.
Qed.

Lemma length_preserved_witness :
  contents (fresh_processor (nums [3; 1; 2])).2 (fresh_processor (nums [3; 1; 2])).1
    = Some (nums [3; 1; 2]) ∧
  ∃ h' l', DataProcessor.sort (fresh_processor (nums [3; 1; 2])).1 true
             (fresh_processor (nums [3; 1; 2])).2
           = Some ((fresh_processor (nums [3; 1; 2])).1, h') ∧
           contents h' (fresh_processor (nums [3; 1; 2])).1 = Some l' ∧
           length l' = 3%nat.
Proof.
  split; [reflexivity|].
  exact (proj2 (proj2 (proj2 (length_preserved (fresh_processor (nums [3; 1; 2])).2
    (fresh_processor (nums [3; 1; 2])).1 (nums [3; 1; 2]) (of_Z 0) true eq_refl)))).
Defined.

(** C10: [filterGreaterThan(t)] applied twice in succession leaves the
    sequence that one application leaves. *)
Theorem filterGreaterThan_idempotent (h : heap) (this : pref) (l : list spec_float)
    (t : spec_float) :
  contents h this = Some l →
  ∃ h1 h2 l1,
    DataProcessor.filterGreaterThan this t h = Some (this, h1) ∧
    contents h1 this = Some l1 ∧
    DataProcessor.filterGreaterThan this t h1 = Some (this, h2) ∧
    contents h2 this = Some l1.
Proof.
  intros Hl.
  pose proof (contents_with_data h this (filter (λ e, Number.gt e t = true) l)) as H1.
  eexists _, _, _. split; [by apply filterGreaterThan_run|]. split; [exact H1|].
  split; [by apply filterGreaterThan_run|].
  rewrite contents_with_data. f_equal.
  rewrite list_filter_filter. apply list_filter_iff. tauto.
Qed.

Lemma filterGreaterThan_idempotent_witness :
  contents (fresh_processor (nums [10; 40; 20; 50])).2
           (fresh_processor (nums [10; 40; 20; 50])).1
    = Some (nums [10; 40; 20; 50]) ∧
  ∃ h1 h2 l1,
    DataProcessor.filterGreaterThan (fresh_processor (nums [10; 40; 20; 50])).1 (of_Z 35)
      (fresh_processor (nums [10; 40; 20; 50])).2
    = Some ((fresh_processor (nums [10; 40; 20; 50])).1, h1) ∧
    contents h1 (fresh_processor (nums [10; 40; 20; 50])).1 = Some l1 ∧
    DataProcessor.filterGreaterThan (fresh_processor (nums [10; 40; 20; 50])).1 (of_Z 35) h1
    = Some ((fresh_processor (nums [10; 40; 20; 50])).1, h2) ∧
    contents h2 (fresh_processor (nums [10; 40; 20; 50])).1 = Some l1.
Proof.
  split; [reflexivity|].
  exact (filterGreaterThan_idempotent (fresh_processor (nums [10; 40; 20; 50])).2
    (fresh_processor (nums [10; 40; 20; 50])).1 (nums [10; 40; 20; 50]) (of_Z 35) eq_refl).
Defined.

(** C5: [getResult()] returns a new array equal to the sequence and changes
    neither a processor nor an existing array; called twice in a row it
    returns equal sequences; and whatever is then done to the returned array,
    the sequence of the processor stays what it was. *)
Theorem getResult_copy (h : heap) (this : pref) (l : list spec_float) :
  contents h this = Some l →
  ∃ r h', DataProcessor.getResult this h = Some (r, h') ∧
          arrays h' !! r = Some l ∧
          arrays h !! r = None ∧
          procs h' = procs h ∧
          (∀ a la, arrays h !! a = Some la → arrays h' !! a = Some la) ∧
          contents h' this = Some l ∧
          (∃ r2 h2, DataProcessor.getResult this h' = Some (r2, h2) ∧
                    arrays h2 !! r2 = Some l ∧ arrays h2 !! r = Some l) ∧
          (∀ l2, ∃ h2, write r l2 h' = Some (tt, h2) ∧ contents h2 this = Some l).
Proof.
  intros Hl. pose proof Hl as (d & Hp & Hd)%contents_Some.
  pose proof (fresh_array h) as Hfresh.
  set (r := fresh (dom (arrays h))) in *.
  assert (r ≠ d) as Hrd by (intros ->; by rewrite Hd in Hfresh).
  assert (contents (set_arrays <[r := l]> h) this = Some l) as Hl'.
  { apply contents_Some. exists d. cbn. by rewrite lookup_insert_ne. }
  exists r, (set_arrays <[r := l]> h).
  split; [by apply getResult_run|]. split; [apply lookup_insert_eq|].
  split; [done|]. split; [done|]. split.
  { intros a la Ha. cbn. rewrite lookup_insert_ne; [done|]. by intros <-; simplify_eq. }
  split; [done|]. split.
  - eexists _, _. split; [by apply getResult_run|]. cbn. split; [apply lookup_insert_eq|].
    rewrite lookup_insert_ne; [apply lookup_insert_eq|].
    intros Heq. pose proof (fresh_array (set_arrays <[r := l]> h)) as Hf.
    cbn in Hf. rewrite Heq in Hf. by rewrite lookup_insert_eq in Hf.
  - intros l2. eexists. unfold write. cbn. rewrite lookup_insert_eq. split; [done|].
    apply contents_Some. exists d. cbn. split; [done|].
    by rewrite insert_insert_eq, lookup_insert_ne.
Qed.

Lemma getResult_copy_witness :
  contents (fresh_processor (nums [12; 14; 16])).2 (fresh_processor (nums [12; 14; 16])).1
    = Some (nums [12; 14; 16]) ∧
  ∃ r h', DataProcessor.getResult (fresh_processor (nums [12; 14; 16])).1
            (fresh_processor (nums [12; 14; 16])).2 = Some (r, h') ∧
          arrays h' !! r = Some (nums [12; 14; 16]) ∧
          ∀ l2, ∃ h2, write r l2 h' = Some (tt, h2) ∧
                      contents h2 (fresh_processor (nums [12; 14; 16])).1
                      = Some (nums [12; 14; 16]).
Proof.
  split; [reflexivity|].
  destruct (getResult_copy (fresh_processor (nums [12; 14; 16])).2
    (fresh_processor (nums [12; 14; 16])).1 (nums [12; 14; 16]) eq_refl)
    as (r & h' & Hrun & Hr & _ & _ & _ & _ & _ & Hw).
  exists r, h'. split; [exact Hrun|]. split; [exact Hr|exact Hw].
Defined.



(** C7, as the code has it: [multiply(1)] leaves the sequence unchanged;
    [multiply(0)] leaves a sequence of the same length in which every finite
    element has become a zero (with the sign of the element) and every
    infinite or [NaN] element has become [NaN], hence a sequence of zeros
    when all elements are finite. *)
Theorem multiply_one_zero (h : heap) (this : pref) (l : list spec_float) :
  contents h this = Some l →
  Forall is_number l →
  (∃ h', DataProcessor.multiply this (of_Z 1) h = Some (this, h') ∧
         contents h' this = Some l) ∧
  (∃ h' l', DataProcessor.multiply this (of_Z 0) h = Some (this, h') ∧
            contents h' this = Some l' ∧
            length l' = length l ∧
            l' = map times_zero l ∧
            (Forall (λ e, is_finite e = true) l → Forall (λ e, is_zero e = true) l')).
Proof.
  intros Hl Hnum. split.
  - eexists. split; [by apply multiply_run|].
    rewrite contents_with_data. f_equal. clear Hl.
    induction Hnum as [|e l He _ IH]; [done|]. cbn [map].
    by rewrite IH, (mul_1_r e He).
  - eexists _, _. split; [by apply multiply_run|].
    split; [apply contents_with_data|]. split; [apply length_map|].
    split; [apply map_ext, mul_0_r|].
    intros Hfin. apply Forall_forall. intros e (e0 & <- & He0)%list_elem_of_In%in_map_iff.
    apply list_elem_of_In in He0. rewrite Forall_forall in Hfin.
    specialize (Hfin e0 He0). rewrite mul_0_r. by destruct e0.
Qed.

Lemma multiply_one_zero_witness :
  contents (fresh_processor (nums [1; -2; 3])).2 (fresh_processor (nums [1; -2; 3])).1
    = Some (nums [1; -2; 3]) ∧
  Forall is_number (nums [1; -2; 3]) ∧
  (∃ h', DataProcessor.multiply (fresh_processor (nums [1; -2; 3])).1 (of_Z 1)
           (fresh_processor (nums [1; -2; 3])).2
         = Some ((fresh_processor (nums [1; -2; 3])).1, h') ∧
         contents h' (fresh_processor (nums [1; -2; 3])).1 = Some (nums [1; -2; 3])) ∧
  (∃ h', DataProcessor.multiply (fresh_processor (nums [1; -2; 3])).1 (of_Z 0)
           (fresh_processor (nums [1; -2; 3])).2
         = Some ((fresh_processor (nums [1; -2; 3])).1, h') ∧
         contents h' (fresh_processor (nums [1; -2; 3])).1
         = Some [S754_zero false; S754_zero true; S754_zero false]).
Proof.
  assert (Forall is_number (nums [1; -2; 3])) as Hnum
    by (repeat constructor; reflexivity).
  split; [reflexivity|]. split; [exact Hnum|].
  destruct (multiply_one_zero (fresh_processor (nums [1; -2; 3])).2
    (fresh_processor (nums [1; -2; 3])).1 (nums [1; -2; 3]) eq_refl Hnum)
    as [H1 (h' & l' & Hrun & Hl & _ & -> & _)].
  split; [exact H1|]. exists h'. split; [exact Hrun|exact Hl].
Defined.

(** C7 fails where an element is infinite: [Infinity * 0] is [NaN]. *)
Lemma multiply_zero_counterexample :
  contents (fresh_processor [Infinity]).2 (fresh_processor [Infinity]).1
    = Some [Infinity] ∧
  result_of (DataProcessor.multiply (fresh_processor [Infinity]).1 (of_Z 0))
    (fresh_processor [Infinity]).2 = Some [NaN] ∧
  ¬ Forall (λ e, is_zero e = true) [NaN].
Proof.
  split; [reflexivity|]. split; [reflexivity|].
  intros H. by apply Forall_cons in H as [? _].
Qed.

(** An infinite element arises from finite ones by overflow. *)
Example overflow_then_zero :
  result_of (a ← alloc [of_Z (10 ^ 308)];
             p ← createProcessor (Some a);
             DataProcessor.multiply p (of_Z 10)) empty_heap = Some [Infinity] ∧
  result_of (a ← alloc [of_Z (10 ^ 308)];
             p ← createProcessor (Some a);
             p ← DataProcessor.multiply p (of_Z 10);
             DataProcessor.multiply p (of_Z 0)) empty_heap = Some [NaN].
Proof. split; vm_compute; reflexivity. Qed.



(** The sum [0.1 + 0.2] is rounded, and taking [0.2] away leaves the number
    two steps above [0.1]. *)
Example add_then_subtract_tenths :
  ¬ exact_add one_tenth two_tenths ∧
  Number.add (Number.add one_tenth two_tenths) (Number.neg two_tenths)
  = S754_finite false 7205759403792796 (-56).
Proof.
  split; [|vm_compute; reflexivity]. intros [_ Hu]. vm_compute in Hu. discriminate Hu.
Qed.


(** Rounding does the same without overflow: [1 + 2 ^ 53] is [2 ^ 53], and
    taking [2 ^ 53] away leaves [0]. *)
Example add_then_subtract_rounded :
  result_of (p ← DataProcessor.add (fresh_processor (nums [1])).1 (of_Z (2 ^ 53));
             DataProcessor.add p (Number.neg (of_Z (2 ^ 53))))
    (fresh_processor (nums [1])).2 = Some (nums [0]).
Proof. vm_compute. reflexivity. Qed.

(** C4, as the code has it: [sort(ascending)] sorts the array of the
    processor in place and keeps the multiset of its elements; when no element
    is [NaN] the result is in numerical order, ascending or descending as
    asked, with the two zeros, which compare equal, in the order they came
    in; and then [sort(true)] followed by [sort(false)] leaves the ascending
    sequence reversed, element for element the same value, again with the
    zeros in the order they had in it. *)
Theorem sort_spec (h : heap) (this : pref) (l : list spec_float) (ascending : bool) :
  contents h this = Some l →
  (∃ h' l', DataProcessor.sort this ascending h = Some (this, h') ∧
            procs h' = procs h ∧
            contents h' this = Some l' ∧
            l' ≡ₚ l ∧
            (Forall ordered_number l →
             StronglySorted (in_order ascending) l' ∧
             filter (λ e, is_zero e = true) l' = filter (λ e, is_zero e = true) l)) ∧
  (∃ h1 h2 l1 l2,
      DataProcessor.sort this true h = Some (this, h1) ∧
      contents h1 this = Some l1 ∧
      DataProcessor.sort this false h1 = Some (this, h2) ∧
      contents h2 this = Some l2 ∧
      l2 ≡ₚ l ∧
      (Forall ordered_number l →
       Forall2 same_value l2 (reverse l1) ∧
       filter (λ e, is_zero e = true) l2 = filter (λ e, is_zero e = true) l1)).
Proof.
  intros (d & Hp & Hd)%contents_Some.
  assert (∀ asc h0 l0, procs h0 !! this = Some d → arrays h0 !! d = Some l0 →
    contents (set_arrays <[d := sort_list (DataProcessor.comparator asc) l0]> h0) this
    = Some (sort_list (DataProcessor.comparator asc) l0)) as Hc.
  { intros asc h0 l0 Hp0 Hd0. apply contents_Some. exists d. cbn.
    split; [done|apply lookup_insert_eq]. }
  split.
  - eexists _, _. split; [by eapply sort_run|]. split; [done|].
    split; [by apply Hc|]. split; [apply sort_list_Permutation|].
    intros Hl. split; [by apply sort_list_in_order|by apply sort_list_zeros].
  - eexists _, _, _, _. split; [by eapply sort_run|]. split; [by apply Hc|].
    split; [eapply sort_run; [exact Hp|apply lookup_insert_eq]|].
    split; [apply Hc; [exact Hp|apply lookup_insert_eq]|].
    split; [by rewrite !sort_list_Permutation|].
    intros Hl. split; [by apply sort_list_descending_ascending|].
    apply sort_list_zeros. by rewrite sort_list_Permutation.
Qed.

Lemma sort_spec_witness :
  contents (fresh_processor [of_Z 40; S754_zero false; of_Z 60; S754_zero true]).2
           (fresh_processor [of_Z 40; S754_zero false; of_Z 60; S754_zero true]).1
    = Some [of_Z 40; S754_zero false; of_Z 60; S754_zero true] ∧
  Forall ordered_number [of_Z 40; S754_zero false; of_Z 60; S754_zero true] ∧
  ∃ h' l',
    DataProcessor.sort
      (fresh_processor [of_Z 40; S754_zero false; of_Z 60; S754_zero true]).1 false
      (fresh_processor [of_Z 40; S754_zero false; of_Z 60; S754_zero true]).2
    = Some ((fresh_processor [of_Z 40; S754_zero false; of_Z 60; S754_zero true]).1, h') ∧
    contents h' (fresh_processor [of_Z 40; S754_zero false; of_Z 60; S754_zero true]).1
    = Some l' ∧
    l' ≡ₚ [of_Z 40; S754_zero false; of_Z 60; S754_zero true] ∧
    StronglySorted (in_order false) l' ∧
    filter (λ e, is_zero e = true) l' = [S754_zero false; S754_zero true].
Proof.
  assert (Forall ordered_number [of_Z 40; S754_zero false; of_Z 60; S754_zero true])
    as Hnum by (repeat constructor; reflexivity).
  split; [reflexivity|]. split; [exact Hnum|].
  destruct (sort_spec
    (fresh_processor [of_Z 40; S754_zero false; of_Z 60; S754_zero true]).2
    (fresh_processor [of_Z 40; S754_zero false; of_Z 60; S754_zero true]).1
    [of_Z 40; S754_zero false; of_Z 60; S754_zero true] false eq_refl)
    as [(h' & l' & Hrun & _ & Hl & Hperm & Hsorted) _].
  exists h', l'. split; [exact Hrun|]. split; [exact Hl|].
  split; [exact Hperm|]. split; [exact (proj1 (Hsorted Hnum))|].
  exact (proj2 (Hsorted Hnum)).
Defined.

(** C4 fails where an element is [NaN], which the comparator places neither
    before nor after any other: from [[2, NaN, 1]], [sort(true)] leaves [2]
    ahead of [1], and [sort(false)] after it leaves the same sequence, not its
    reverse. *)
Lemma sort_counterexample :
  contents (fresh_processor [of_Z 2; NaN; of_Z 1]).2
           (fresh_processor [of_Z 2; NaN; of_Z 1]).1
    = Some [of_Z 2; NaN; of_Z 1] ∧
  result_of (DataProcessor.sort (fresh_processor [of_Z 2; NaN; of_Z 1]).1 true)
    (fresh_processor [of_Z 2; NaN; of_Z 1]).2 = Some [of_Z 2; NaN; of_Z 1] ∧
  Number.gt (of_Z 2) (of_Z 1) = true ∧
  ¬ StronglySorted (in_order true) [of_Z 2; NaN; of_Z 1] ∧
  result_of (p ← DataProcessor.sort (fresh_processor [of_Z 2; NaN; of_Z 1]).1 true;
             DataProcessor.sort p false)
    (fresh_processor [of_Z 2; NaN; of_Z 1]).2 = Some [of_Z 2; NaN; of_Z 1] ∧
  [of_Z 2; NaN; of_Z 1] ≠ reverse [of_Z 2; NaN; of_Z 1].
Proof.
  split; [reflexivity|]. split; [vm_compute; reflexivity|]. split; [reflexivity|].
  split. { intros [[Hle _]%Forall_cons _]%StronglySorted_cons. discriminate Hle. }
  split; [vm_compute; reflexivity|]. discriminate.
Qed.

(** Without [NaN] too the reverse is met only up to the two zeros: they
    compare equal, and the sort, being stable, never exchanges them. *)
Example sort_zeros :
  result_of (p ← DataProcessor.sort (fresh_processor [S754_zero false; S754_zero true]).1 true;
             DataProcessor.sort p false)
    (fresh_processor [S754_zero false; S754_zero true]).2
  = Some [S754_zero false; S754_zero true].
Proof. vm_compute. reflexivity. Qed.

(** * Ownership, chains and schedules *)

Section Ownership.

Lemma separated_empty : separated empty_heap.
Proof. apply map_Forall_empty. Qed.

Lemma separated_lookup (h : heap) (p q : pref) (d : aref) :
  separated h → procs h !! p = Some d → procs h !! q = Some d → p = q.
Proof. intros Hs Hp Hq. destruct (Hs p d Hp) as [_ Hinj]. symmetry. by apply (Hinj q d). Qed.

Lemma separated_live (h : heap) (p : pref) (d : aref) :
  separated h → procs h !! p = Some d → is_Some (arrays h !! d).
Proof. intros Hs Hp. by destruct (Hs p d Hp). Qed.

Lemma separated_contents (h : heap) (p : pref) :
  separated h → is_Some (procs h !! p) → is_Some (contents h p).
Proof.
  intros Hs [d Hp]. destruct (separated_live h p d Hs Hp) as [l Hl].
  exists l. apply contents_Some. eauto.
Qed.

(** Giving [p] a fresh array keeps the processors apart. *)
Lemma separated_fresh (h h' : heap) (p : pref) (l : list spec_float) :
  arrays h' = <[fresh (dom (arrays h)) := l]> (arrays h) →
  procs h' = <[p := fresh (dom (arrays h))]> (procs h) →
  separated h → separated h'.
Proof.
  intros Ha Hp Hs q d. unfold separated. rewrite Ha, Hp.
  pose proof (fresh_array h) as Hfresh. set (a := fresh (dom (arrays h))) in *.
  assert (∀ q0, procs h !! q0 ≠ Some a) as Hfree.
  { intros q0 Hq0. destruct (separated_live h q0 a Hs Hq0) as [lq Hlq].
    by rewrite Hlq in Hfresh. }
  intros [[<- <-]|[Hne Hq]]%lookup_insert_Some. 
  - split; [by rewrite lookup_insert_eq|].
    intros q' d' [[<- _]|[Hne' Hq']]%lookup_insert_Some; [done|].
    intros ->. by destruct (Hfree q').
  - split.
    + destruct (separated_live h q d Hs Hq) as [lq Hlq].
      exists lq. rewrite lookup_insert_ne; [done|]. intros <-. by rewrite Hlq in Hfresh.
    + intros q' d' [[<- <-]|[Hne' Hq']]%lookup_insert_Some.
      * intros ->. by destruct (Hfree q).
      * intros ->. by apply (separated_lookup h q' q d).
Qed.

(** Overwriting an array that exists keeps the processors apart. *)
Lemma separated_overwrite (h h' : heap) (a : aref) (l : list spec_float) :
  is_Some (arrays h !! a) →
  arrays h' = <[a := l]> (arrays h) → procs h' = procs h →
  separated h → separated h'.
Proof.
  intros Hlive Ha Hp Hs q d. unfold separated. rewrite Ha, Hp. intros Hq. split.
  - destruct (decide (a = d)) as [->|Hne].
    + by rewrite lookup_insert_eq.
    + rewrite lookup_insert_ne by done. by apply (separated_live h q).
  - intros q' d' Hq' ->. by apply (separated_lookup h q' q d).
Qed.

(** A new array that no processor holds keeps the processors apart. *)
Lemma separated_alloc (h h' : heap) (l : list spec_float) :
  arrays h' = <[fresh (dom (arrays h)) := l]> (arrays h) → procs h' = procs h →
  separated h → separated h'.
Proof.
  intros Ha Hp Hs q d. unfold separated. rewrite Ha, Hp. intros Hq. split.
  - destruct (separated_live h q d Hs Hq) as [lq Hlq]. exists lq.
    rewrite lookup_insert_ne; [done|]. intros <-. by rewrite fresh_array in Hlq.
  - intros q' d' Hq' ->. by apply (separated_lookup h q' q d).
Qed.

(** A new processor on an array that no processor holds. *)
Lemma separated_new_proc (h h' : heap) (d : aref) :
  caller_owned h d →
  arrays h' = arrays h → procs h' = <[fresh (dom (procs h)) := d]> (procs h) →
  separated h → separated h'.
Proof.
  intros [Hlive Hfree] Ha Hp Hs q dq. unfold separated. rewrite Ha, Hp.
  intros [[<- <-]|[Hne Hq]]%lookup_insert_Some.
  - split; [done|].
    intros q' d' [[<- _]|[Hne' Hq']]%lookup_insert_Some; [done|].
    intros ->. by destruct (Hfree q' _ Hq').
  - split; [by apply (separated_live h q)|].
    intros q' d' [[<- <-]|[Hne' Hq']]%lookup_insert_Some.
    + intros ->. by destruct (Hfree q _ Hq).
    + intros ->. by apply (separated_lookup h q' q _ Hs Hq' Hq).
Qed.

End Ownership.

Section Updates.

Lemma invoke_updates (c : call) (h : heap) (p : pref) (l : list spec_float) :
  contents h p = Some l →
  ∃ h', invoke c p h = Some (p, h') ∧ updates p (effect c l) h h' ∧
        timers h' = timers h.
Proof.
  intros Hl. destruct c as [v|v|t|asc]; cbn [invoke effect].
  - eexists. split; [by apply add_run|]. split; [by left|done].
  - eexists. split; [by apply multiply_run|]. split; [by left|done].
  - eexists. split; [by apply filterGreaterThan_run|]. split; [by left|done].
  - pose proof Hl as (d & Hp & Hd)%contents_Some.
    eexists. split; [by eapply sort_run|]. split; [|done]. right. by exists d.
Qed.

Lemma invokeAsync_updates (c : call) (delayMs : spec_float) (h : heap) (p : pref)
    (l : list spec_float) :
  contents h p = Some l →
  ∃ h', invokeAsync c delayMs p h = Some (p, h') ∧ updates p (effect c l) h h'.
Proof.
  intros Hl.
  destruct (invoke_updates c (set_timers (cons delayMs) h) p l Hl) as (h' & Hrun & Hup & _).
  destruct c as [v|v|t|asc]; try (by exists h').
  destruct (invoke_updates (Sort asc) h p l Hl) as (h2 & Hrun2 & Hup2 & _).
  by exists h2.
Qed.

Lemma updates_contents (h h' : heap) (p : pref) (l : list spec_float) :
  updates p l h h' → contents h' p = Some l.
Proof.
  intros [[Ha Hp]|(d & Hd & Ha & Hp)]; apply contents_Some; rewrite Ha, Hp.
  - eexists. by rewrite !lookup_insert_eq.
  - exists d. by rewrite lookup_insert_eq.
Qed.

Lemma updates_separated (h h' : heap) (p : pref) (l : list spec_float) :
  updates p l h h' → separated h → separated h'.
Proof.
  intros [[Ha Hp]|(d & Hd & Ha & Hp)] Hs.
  - by eapply separated_fresh.
  - eapply separated_overwrite; [|done..]. by eapply separated_live.
Qed.

(** A call on [p] leaves the sequence of every other processor alone. *)
Lemma updates_frame (h h' : heap) (p q : pref) (l : list spec_float) :
  updates p l h h' → separated h → q ≠ p → contents h' q = contents h q.
Proof.
  intros [[Ha Hp]|(d & Hd & Ha & Hp)] Hs Hne; unfold contents; rewrite Ha, Hp.
  - rewrite lookup_insert_ne by done.
    destruct (procs h !! q) as [dq|] eqn:Hq; [cbn|done].
    rewrite lookup_insert_ne; [done|]. intros Heq.
    destruct (separated_live h q dq Hs Hq) as [lq Hlq].
    by rewrite <- Heq, fresh_array in Hlq.
  - destruct (procs h !! q) as [dq|] eqn:Hq; [cbn|done].
    rewrite lookup_insert_ne; [done|]. intros <-.
    by destruct Hne; apply (separated_lookup h q p d).
Qed.

(** A call never touches an array that is the caller's. *)
Lemma updates_caller_owned (h h' : heap) (p : pref) (l : list spec_float) (a : aref) :
  updates p l h h' → caller_owned h a →
  caller_owned h' a ∧ arrays h' !! a = arrays h !! a.
Proof.
  intros Hup [[la Hla] Hfree].
  assert (fresh (dom (arrays h)) ≠ a) as Hfresh.
  { intros Heq. by rewrite <- Heq, fresh_array in Hla. }
  unfold caller_owned.
  destruct Hup as [[Ha Hp]|(d & Hd & Ha & Hp)]; rewrite Ha, Hp.
  - rewrite lookup_insert_ne by done. split; [split; [by exists la|]|done].
    intros q dq [[_ <-]|[_ Hq]]%lookup_insert_Some; [done|by apply (Hfree q)].
  - assert (d ≠ a) as Hda by by apply (Hfree p).
    rewrite lookup_insert_ne by done. split; [split; [by exists la|]|done]. done.
Qed.

Lemma updates_live (h h' : heap) (p q : pref) (l : list spec_float) :
  updates p l h h' → is_Some (procs h !! p) →
  is_Some (procs h' !! q) ↔ is_Some (procs h !! q).
Proof.
  intros [[Ha Hp]|(d & Hd & Ha & Hp)] Hlive; rewrite Hp; [|done].
  destruct (decide (p = q)) as [->|Hne].
  - by rewrite lookup_insert_eq.
  - by rewrite lookup_insert_ne.
Qed.

End Updates.

Section Chains.

Lemma effects_cons (c : call) (cs : list call) (l : list spec_float) :
  effects (c :: cs) l = effects cs (effect c l).
Proof. done. Qed.

Lemma calls_on_cons (p q : pref) (c : call) (delayMs : spec_float)
    (steps : list (positive * call * spec_float)) :
  calls_on p ((q, c, delayMs) :: steps) =
  if decide (q = p) then c :: calls_on p steps else calls_on p steps.
Proof.
  unfold calls_on. destruct (decide (q = p)) as [Heq|Hne].
  - by rewrite filter_cons_True.
  - by rewrite filter_cons_False.
Qed.

Lemma live_contents (h : heap) (p : pref) (l : list spec_float) :
  contents h p = Some l → is_Some (procs h !! p).
Proof. intros (d & Hp & _)%contents_Some. by exists d. Qed.

(** Running a schedule: every call returns, and the store changes by the
    updates of the calls. *)
Lemma schedule_run (steps : list (positive * call * spec_float)) (h : heap) :
  separated h →
  Forall (λ s, is_Some (procs h !! s.1.1)) steps →
  ∃ h', schedule steps h = Some (tt, h') ∧
        separated h' ∧
        (∀ p l, contents h p = Some l →
                contents h' p = Some (effects (calls_on p steps) l)) ∧
        (∀ a, caller_owned h a → caller_owned h' a ∧ arrays h' !! a = arrays h !! a).
Proof.
  revert h. induction steps as [|[[p c] delayMs] steps IH]; intros h Hs Hlive.
  - exists h. split; [done|]. split; [done|]. split; [by intros p l Hl|by intros a Ha].
  - apply Forall_cons in Hlive as [Hp Hlive]. cbn in Hp.
    destruct (separated_contents h p Hs Hp) as [l0 Hl0].
    destruct (invokeAsync_updates c delayMs h p l0 Hl0) as (h1 & Hrun & Hup).
    assert (separated h1) as Hs1 by by eapply updates_separated.
    assert (Forall (λ s, is_Some (procs h1 !! s.1.1)) steps) as Hlive1.
    { eapply Forall_impl; [exact Hlive|]. intros s Hq. by eapply updates_live. }
    destruct (IH h1 Hs1 Hlive1) as (h' & Hrest & Hs' & Hc & Ho).
    exists h'. split; [|split; [done|split]].
    + cbn [schedule]. unfold mbind, Js_bind. by rewrite Hrun.
    + intros q l Hq. rewrite calls_on_cons. destruct (decide (p = q)) as [<-|Hne].
      * rewrite effects_cons. apply Hc. rewrite Hl0 in Hq. injection Hq as <-.
        by eapply updates_contents.
      * apply Hc. by rewrite (updates_frame h h1 p q (effect c l0)).
    + intros a Ha. destruct (updates_caller_owned h h1 p _ a Hup Ha) as [Ha1 Heq1].
      destruct (Ho a Ha1) as [Ha' Heq']. split; [done|]. by rewrite Heq', Heq1.
Qed.

End Chains.

Section Isolation.

Lemma constructor_run (h : heap) (initialData : option aref) :
  (∀ a, initialData = Some a → is_Some (arrays h !! a)) →
  ∃ p h' d l,
    DataProcessor.constructor initialData h = Some (p, h') ∧
    p = fresh (dom (procs h)) ∧
    (∀ a, initialData = Some a → arrays h !! a = Some l) ∧
    (initialData = None → l = []) ∧
    procs h' = <[p := d]> (procs h) ∧
    arrays h' !! d = Some l ∧
    arrays h !! d = None ∧
    (∀ a, is_Some (arrays h !! a) → arrays h' !! a = arrays h !! a) ∧
    timers h' = timers h ∧
    (separated h → separated h').
Proof.
  intros Hinit. destruct initialData as [a|].
  - destruct (Hinit a eq_refl) as [l Hl].
    pose proof (fresh_array h) as Hfd. set (d := fresh (dom (arrays h))) in *.
    exists (fresh (dom (procs h))), (set_procs <[fresh (dom (procs h)) := d]>
      (set_arrays <[d := l]> h)), d, l.
    split.
    { unfold DataProcessor.constructor, spread, mbind, Js_bind, mret, Js_ret, read.
      by rewrite Hl. }
    split; [done|]. split; [by intros ? [= <-]|]. split; [done|]. split; [done|].
    split; [apply lookup_insert_eq|]. split; [done|]. split.
    { intros a' [la Hla]. cbn. rewrite lookup_insert_ne; [done|].
      intros Heq. by rewrite <- Heq, Hfd in Hla. }
    split; [done|]. intros Hs.
    apply (separated_new_proc (set_arrays <[d := l]> h) _ d); [|done|done|].
    + split; [cbn; by rewrite lookup_insert_eq|]. intros q dq Hq Heq. cbn in Hq.
      destruct (separated_live h q dq Hs Hq) as [lq Hlq].
      by rewrite Heq, Hfd in Hlq.
    + by apply (separated_alloc h _ l).
  - pose proof (fresh_array h) as Hfa. set (a0 := fresh (dom (arrays h))) in *.
    set (h0 := set_arrays <[a0 := []]> h).
    set (d := fresh (dom (arrays h0))).
    exists (fresh (dom (procs h))), (set_procs <[fresh (dom (procs h)) := d]>
      (set_arrays <[d := []]> h0)), d, [].
    pose proof (fresh_array h0) as Hd. fold d in Hd.
    assert (d ≠ a0) as Hne.
    { intros Heq. rewrite Heq in Hd. cbn in Hd. by rewrite lookup_insert_eq in Hd. }
    split.
    { unfold DataProcessor.constructor, spread, mbind, Js_bind, mret, Js_ret, read, alloc.
      cbn. by rewrite lookup_insert_eq. }
    split; [done|]. split; [done|]. split; [done|]. split; [done|].
    split; [apply lookup_insert_eq|]. split.
    { cbn in Hd. by rewrite lookup_insert_ne in Hd. }
    split.
    { intros a' [la Hla]. cbn. rewrite !lookup_insert_ne; [done| |].
      - intros Heq. by rewrite <- Heq, Hfa in Hla.
      - intros Heq. rewrite <- Heq in Hla. cbn in Hd.
        rewrite lookup_insert_ne in Hd by done. by rewrite Hd in Hla. }
    split; [done|]. intros Hs.
    assert (separated h0) as Hs0 by by apply (separated_alloc h _ []).
    apply (separated_new_proc (set_arrays <[d := []]> h0) _ d); [|done|done|].
    + split; [cbn; by rewrite lookup_insert_eq|]. intros q dq Hq Heq. cbn in Hq.
      destruct (separated_live h0 q dq Hs0 Hq) as [lq Hlq].
      by rewrite Heq, Hd in Hlq.
    + by apply (separated_alloc h0 _ []).
Qed.

Lemma getResult_owned (h : heap) (p : pref) (l : list spec_float) :
  separated h → contents h p = Some l →
  ∃ r h', DataProcessor.getResult p h = Some (r, h') ∧
          arrays h' !! r = Some l ∧ caller_owned h' r ∧ separated h' ∧
          procs h' = procs h ∧
          (∀ q, contents h' q = contents h q).
Proof.
  intros Hs Hl. pose proof (fresh_array h) as Hfr.
  set (r := fresh (dom (arrays h))) in *.
  exists r, (set_arrays <[r := l]> h). split; [by apply getResult_run|].
  assert (∀ q dq, procs h !! q = Some dq → dq ≠ r) as Hfree.
  { intros q dq Hq Heq. destruct (separated_live h q dq Hs Hq) as [lq Hlq].
    by rewrite Heq, Hfr in Hlq. }
  split; [apply lookup_insert_eq|]. split.
  { split; [cbn; by rewrite lookup_insert_eq|]. intros q dq Hq. by apply (Hfree q). }
  split; [by apply (separated_alloc h _ l)|]. split; [done|].
  intros q. unfold contents. cbn. destruct (procs h !! q) as [dq|] eqn:Hq; [cbn|done].
  rewrite lookup_insert_ne; [done|]. intros Heq. by destruct (Hfree q dq Hq).
Qed.

End Isolation.

Section Blind2.

Lemma timer_blind_sort (this : pref) (ascending : bool) :
  timer_blind (DataProcessor.sort this ascending).
Proof. unfold DataProcessor.sort, Array_sort. blind. Qed.

Lemma timer_blind_invoke (c : call) (this : pref) : timer_blind (invoke c this).
Proof.
  destruct c; cbn [invoke]; auto using timer_blind_add, timer_blind_multiply,
    timer_blind_filterGreaterThan, timer_blind_sort.
Qed.

Lemma timer_blind_chain (cs : list call) (this : pref) : timer_blind (chain cs this).
Proof.
  revert this. induction cs as [|c cs IH]; intros this; cbn [chain].
  - apply timer_blind_ret.
  - apply timer_blind_bind; [apply timer_blind_invoke|done].
Qed.

(** A suspending call is the immediate call made after the timers changed. *)
Lemma invokeAsync_invoke (c : call) (delayMs : spec_float) (this : pref) (h : heap) :
  ∃ g, invokeAsync c delayMs this h = invoke c this (set_timers g h).
Proof.
  destruct c; [by exists (cons delayMs)..|]. exists id. by destruct h.
Qed.

Lemma chainAsync_chain (cs : list (call * spec_float)) (this : pref) (h : heap) :
  ∃ f, chainAsync cs this h = prod_map id (set_timers f) <$> chain cs.*1 this h.
Proof.
  revert this h. induction cs as [|[c delayMs] cs IH]; intros this h.
  - exists id. cbn. by destruct h.
  - cbn [chainAsync chain fmap list_fmap fst]. unfold mbind, Js_bind.
    destruct (invokeAsync_invoke c delayMs this h) as [g ->].
    rewrite timer_blind_invoke.
    destruct (invoke c this h) as [[p h1]|]; cbn; [|by exists id].
    destruct (IH p (set_timers g h1)) as [f ->].
    exists (f ∘ g). rewrite timer_blind_chain.
    by destruct (chain cs.*1 p h1) as [[q h2]|].
Qed.

End Blind2.

(** X1: a store in which every processor has an existing array of its own
    stays such a store: from it the constructors, every chainable method,
    [getResult], their suspending variants and a write of the caller to an
    existing array all return, and leave the processors apart. *)
Theorem separated_invariant (h : heap) :
  separated h →
  (∀ initialData delayMs,
     (∀ a, initialData = Some a → is_Some (arrays h !! a)) →
     (∃ p h', createProcessor initialData h = Some (p, h') ∧ separated h') ∧
     (∃ p h', createProcessorAsync initialData delayMs h = Some (p, h') ∧
              separated h')) ∧
  (∀ c delayMs p,
     is_Some (procs h !! p) →
     (∃ h', invoke c p h = Some (p, h') ∧ separated h') ∧
     (∃ h', invokeAsync c delayMs p h = Some (p, h') ∧ separated h')) ∧
  (∀ p delayMs,
     is_Some (procs h !! p) →
     (∃ r h', DataProcessor.getResult p h = Some (r, h') ∧ separated h') ∧
     (∃ r h', DataProcessor.getResultAsync p delayMs h = Some (r, h') ∧
              separated h')) ∧
  (∀ a l, is_Some (arrays h !! a) → ∃ h', write a l h = Some (tt, h') ∧ separated h').
Proof.
  intros Hs. split; [|split; [|split]].
  - intros init delayMs Hinit. split.
    + destruct (constructor_run h init Hinit) as (p & h' & d & l & Hrun & _ & _ & _ & _ & _ & _ & _ & _ & Hs').
      exists p, h'. split; [done|by apply Hs'].
    + destruct (constructor_run (set_timers (cons delayMs) h) init Hinit)
        as (p & h' & d & l & Hrun & _ & _ & _ & _ & _ & _ & _ & _ & Hs').
      exists p, h'. split; [done|by apply Hs'].
  - intros c delayMs p Hp. destruct (separated_contents h p Hs Hp) as [l Hl]. split.
    + destruct (invoke_updates c h p l Hl) as (h' & Hrun & Hup & _).
      exists h'. split; [done|by eapply updates_separated].
    + destruct (invokeAsync_updates c delayMs h p l Hl) as (h' & Hrun & Hup).
      exists h'. split; [done|by eapply updates_separated].
  - intros p delayMs Hp. destruct (separated_contents h p Hs Hp) as [l Hl]. split.
    + destruct (getResult_owned h p l Hs Hl) as (r & h' & Hrun & _ & _ & Hs' & _).
      by exists r, h'.
    + destruct (getResult_owned (set_timers (cons delayMs) h) p l Hs Hl)
        as (r & h' & Hrun & _ & _ & Hs' & _).
      by exists r, h'.
  - intros a l [la Hla]. exists (set_arrays <[a := l]> h). unfold write. rewrite Hla.
    split; [done|]. by apply (separated_overwrite h _ a l).
Qed.

Lemma separated_invariant_witness :
  separated (fresh_processor (nums [1; 2; 3])).2 ∧
  ∃ h', invoke (Sort false) (fresh_processor (nums [1; 2; 3])).1
          (fresh_processor (nums [1; 2; 3])).2
        = Some ((fresh_processor (nums [1; 2; 3])).1, h') ∧ separated h'.
Proof.
  assert (separated (fresh_processor (nums [1; 2; 3])).2) as Hs by compute_done.
  split; [exact Hs|].
  destruct (separated_invariant (fresh_processor (nums [1; 2; 3])).2 Hs)
    as (_ & Hcall & _).
  apply (Hcall (Sort false) (of_Z 0) (fresh_processor (nums [1; 2; 3])).1).
  compute_done.
Defined.

(** X2: however the calls of chains on several processors are interleaved,
    every call returns, and each processor none of whose sorts met a [NaN]
    ends with the sequence that its own calls make, in their order, of the
    sequence it had. *)
Theorem schedule_isolated (h : heap) (steps : list (positive * call * spec_float)) :
  separated h →
  Forall (λ s, is_Some (procs h !! s.1.1)) steps →
  ∃ h', schedule steps h = Some (tt, h') ∧
        ∀ p l, contents h p = Some l →
               sorts_without_NaN (calls_on p steps) l = true →
               contents h' p = Some (effects (calls_on p steps) l).
Proof.
  intros Hs Hlive. destruct (schedule_run steps h Hs Hlive) as (h' & Hrun & _ & Hc & _).
  exists h'. split; [done|]. intros p l Hl _. by apply Hc.
Qed.

Lemma schedule_isolated_witness :
  separated (two_processors (nums [1; 2; 3]) (nums [4; 5; 6])).2 ∧
  ∃ h', schedule [(1%positive, Add (of_Z 10), of_Z 100);
                  (2%positive, Add (of_Z 5), of_Z 100);
                  (2%positive, Multiply (of_Z 3), of_Z 100);
                  (1%positive, Sort false, of_Z 0);
                  (1%positive, Multiply (of_Z 2), of_Z 100)]
          (two_processors (nums [1; 2; 3]) (nums [4; 5; 6])).2 = Some (tt, h') ∧
        contents h' 1%positive = Some (nums [26; 24; 22]) ∧
        contents h' 2%positive = Some (nums [27; 30; 33]).
Proof.
  assert (separated (two_processors (nums [1; 2; 3]) (nums [4; 5; 6])).2) as Hs
    by compute_done.
  split; [exact Hs|].
  destruct (schedule_isolated (two_processors (nums [1; 2; 3]) (nums [4; 5; 6])).2
    [(1%positive, Add (of_Z 10), of_Z 100); (2%positive, Add (of_Z 5), of_Z 100);
     (2%positive, Multiply (of_Z 3), of_Z 100); (1%positive, Sort false, of_Z 0);
     (1%positive, Multiply (of_Z 2), of_Z 100)]
    Hs ltac:(repeat constructor; compute_done)) as (h' & Hrun & Hc).
  exists h'. split; [exact Hrun|].
  split; [exact (Hc 1%positive (nums [1; 2; 3]) eq_refl eq_refl)|
          exact (Hc 2%positive (nums [4; 5; 6]) eq_refl eq_refl)].
Defined.

(** X3: the array [getResult] returned keeps the sequence it was given,
    whatever calls are made afterwards on the processor or on any other one,
    the sort in place included. *)
Theorem getResult_snapshot (h : heap) (p : pref) (l : list spec_float)
    (steps : list (positive * call * spec_float)) :
  separated h →
  contents h p = Some l →
  Forall (λ s, is_Some (procs h !! s.1.1)) steps →
  ∃ r h1 h', DataProcessor.getResult p h = Some (r, h1) ∧
             arrays h !! r = None ∧
             arrays h1 !! r = Some l ∧
             schedule steps h1 = Some (tt, h') ∧
             arrays h' !! r = Some l.
Proof.
  intros Hs Hl Hlive.
  destruct (getResult_owned h p l Hs Hl) as (r & h1 & Hrun & Hr & Hown & Hs1 & Hp & Hc).
  assert (Forall (λ s, is_Some (procs h1 !! s.1.1)) steps) as Hlive1 by by rewrite Hp.
  destruct (schedule_run steps h1 Hs1 Hlive1) as (h' & Hsched & _ & Hc' & Ho).
  exists r, h1, h'. split; [done|]. split.
  { rewrite (getResult_run h p l Hl) in Hrun. injection Hrun as <- _. apply fresh_array. }
  split; [done|]. split; [done|].
  destruct (Ho r Hown) as [_ ->]. done.
Qed.

Lemma getResult_snapshot_witness :
  separated (fresh_processor (nums [3; 1; 2])).2 ∧
  contents (fresh_processor (nums [3; 1; 2])).2 (fresh_processor (nums [3; 1; 2])).1
    = Some (nums [3; 1; 2]) ∧
  ∃ r h1 h', DataProcessor.getResult (fresh_processor (nums [3; 1; 2])).1
               (fresh_processor (nums [3; 1; 2])).2 = Some (r, h1) ∧
             arrays (fresh_processor (nums [3; 1; 2])).2 !! r = None ∧
             arrays h1 !! r = Some (nums [3; 1; 2]) ∧
             schedule [(1%positive, Sort true, of_Z 0); (1%positive, Add (of_Z 1), of_Z 50)]
               h1 = Some (tt, h') ∧
             arrays h' !! r = Some (nums [3; 1; 2]).
Proof.
  assert (separated (fresh_processor (nums [3; 1; 2])).2) as Hs by compute_done.
  split; [exact Hs|]. split; [reflexivity|].
  exact (getResult_snapshot (fresh_processor (nums [3; 1; 2])).2
    (fresh_processor (nums [3; 1; 2])).1 (nums [3; 1; 2])
    [(1%positive, Sort true, of_Z 0); (1%positive, Add (of_Z 1), of_Z 50)]
    Hs eq_refl ltac:(repeat constructor; compute_done)).
Defined.

(** X4: the constructor leaves the array it is given as it is, and so does
    every call made afterwards, on the new processor or on any other. *)
Theorem constructor_keeps_initial (h : heap) (initial : aref) (l : list spec_float) :
  separated h →
  caller_owned h initial →
  arrays h !! initial = Some l →
  ∃ p h1, createProcessor (Some initial) h = Some (p, h1) ∧
          contents h1 p = Some l ∧
          arrays h1 !! initial = Some l ∧
          ∀ steps, Forall (λ s, is_Some (procs h1 !! s.1.1)) steps →
                   ∃ h', schedule steps h1 = Some (tt, h') ∧
                         arrays h' !! initial = Some l.
Proof.
  intros Hs [Hlive Hfree] Hl.
  destruct (constructor_run h (Some initial)) as
    (p & h1 & d & l0 & Hrun & Hp & Hinit & _ & Hprocs & Hd & Hd0 & Hframe & _ & Hs1).
  { by intros a [= <-]. }
  assert (l0 = l) as -> by (specialize (Hinit initial eq_refl); congruence).
  assert (arrays h1 !! initial = Some l) as Hl1 by by rewrite Hframe.
  exists p, h1. split; [done|]. split.
  { apply contents_Some. exists d. by rewrite Hprocs, lookup_insert_eq. }
  split; [done|]. intros steps Hsteps.
  destruct (schedule_run steps h1 (Hs1 Hs) Hsteps) as (h' & Hsched & _ & Hc & Ho).
  assert (caller_owned h1 initial) as Hown.
  { split; [by rewrite Hl1|]. rewrite Hprocs.
    intros q dq [[_ <-]|[_ Hq]]%lookup_insert_Some; [|by apply (Hfree q)].
    intros ->. by rewrite Hl in Hd0. }
  exists h'. split; [done|].
  destruct (Ho initial Hown) as [_ ->]. done.
Qed.

Lemma constructor_keeps_initial_witness :
  separated (one_array (nums [3; 1; 2])) ∧
  caller_owned (one_array (nums [3; 1; 2])) 1%positive ∧
  arrays (one_array (nums [3; 1; 2])) !! 1%positive = Some (nums [3; 1; 2]) ∧
  ∃ p h1, createProcessor (Some 1%positive) (one_array (nums [3; 1; 2])) = Some (p, h1) ∧
          arrays h1 !! 1%positive = Some (nums [3; 1; 2]) ∧
          ∃ h', schedule [(p, Sort true, of_Z 0); (p, Multiply (of_Z 2), of_Z 10)] h1
                = Some (tt, h') ∧
                arrays h' !! 1%positive = Some (nums [3; 1; 2]).
Proof.
  assert (separated (one_array (nums [3; 1; 2]))) as Hs by compute_done.
  assert (caller_owned (one_array (nums [3; 1; 2])) 1%positive) as Ho by compute_done.
  split; [exact Hs|]. split; [exact Ho|]. split; [reflexivity|].
  destruct (constructor_keeps_initial (one_array (nums [3; 1; 2])) 1%positive
    (nums [3; 1; 2]) Hs Ho eq_refl) as (p & h1 & Hrun & Hc & Hl & Hsteps).
  exists p, h1. split; [exact Hrun|]. split; [exact Hl|].
  apply Hsteps. pose proof (live_contents h1 p _ Hc) as Hlive.
  repeat constructor; exact Hlive.
Defined.

Lemma chain_run (cs : list call) (h : heap) (p : pref) (l : list spec_float) :
  contents h p = Some l →
  ∃ h', chain cs p h = Some (p, h') ∧
        contents h' p = Some (effects cs l) ∧
        timers h' = timers h.
Proof.
  revert h l. induction cs as [|c cs IH]; intros h l Hl.
  - by exists h.
  - destruct (invoke_updates c h p l Hl) as (h1 & Hrun & Hup & Ht).
    destruct (IH h1 (effect c l) (updates_contents _ _ _ _ Hup)) as (h' & Hrest & Hc & Ht').
    exists h'. split; [|split; [done|congruence]].
    cbn [chain]. unfold mbind, Js_bind. by rewrite Hrun.
Qed.

(** X5: a chain of calls returns the instance it was started on and sets no
    timer; when none of its sorts meets a [NaN] it leaves the sequence that
    the calls make of the one it found, applied one after the other. *)
Theorem chain_contents (cs : list call) (h : heap) (p : pref) (l : list spec_float) :
  contents h p = Some l →
  ∃ h', chain cs p h = Some (p, h') ∧
        timers h' = timers h ∧
        (sorts_without_NaN cs l = true → contents h' p = Some (effects cs l)).
Proof.
  intros Hl. destruct (chain_run cs h p l Hl) as (h' & Hrun & Hc & Ht).
  by exists h'.
Qed.

Lemma chain_contents_witness :
  contents (fresh_processor (nums [5; 10; 15; 20; 25])).2
           (fresh_processor (nums [5; 10; 15; 20; 25])).1
    = Some (nums [5; 10; 15; 20; 25]) ∧
  ∃ h', chain [Add (of_Z 5); Multiply (of_Z 2); FilterGreaterThan (of_Z 35); Sort false]
          (fresh_processor (nums [5; 10; 15; 20; 25])).1
          (fresh_processor (nums [5; 10; 15; 20; 25])).2
        = Some ((fresh_processor (nums [5; 10; 15; 20; 25])).1, h') ∧
        contents h' (fresh_processor (nums [5; 10; 15; 20; 25])).1
        = Some (nums [60; 50; 40]).
Proof.
  split; [reflexivity|].
  destruct (chain_contents
    [Add (of_Z 5); Multiply (of_Z 2); FilterGreaterThan (of_Z 35); Sort false]
    (fresh_processor (nums [5; 10; 15; 20; 25])).2
    (fresh_processor (nums [5; 10; 15; 20; 25])).1 (nums [5; 10; 15; 20; 25]) eq_refl)
    as (h' & Hrun & _ & Hc).
  exists h'. split; [exact Hrun|exact (Hc eq_refl)].
Defined.

(** X6: a chain of suspending calls returns what the chain of the immediate
    calls returns and leaves the same arrays and processors, whatever the
    delays and from every store. *)
Theorem chainAsync_same_as_chain (cs : list (call * spec_float)) (this : pref) (h : heap) :
  outcome (chainAsync cs this h) = outcome (chain cs.*1 this h).
Proof.
  destruct (chainAsync_chain cs this h) as [f ->]. unfold outcome.
  by destruct (chain cs.*1 this h) as [[p h']|].
Qed.

(** X7: on an empty container every chain of calls returns and leaves it
    empty. *)
Theorem chain_empty (cs : list call) (h : heap) (p : pref) :
  contents h p = Some [] →
  ∃ h', chain cs p h = Some (p, h') ∧ contents h' p = Some [].
Proof.
  intros Hl. destruct (chain_run cs h p [] Hl) as (h' & Hrun & Hc & _).
  exists h'. split; [done|]. rewrite Hc. f_equal.
  clear. induction cs as [|c cs IH]; [done|].
  unfold effects in *. cbn [foldl]. by destruct c.
Qed.

Lemma chain_empty_witness :
  contents (fresh_processor []).2 (fresh_processor []).1 = Some [] ∧
  ∃ h', chain [Add (of_Z 5); Sort true; FilterGreaterThan (of_Z 1)]
          (fresh_processor []).1 (fresh_processor []).2
        = Some ((fresh_processor []).1, h') ∧
        contents h' (fresh_processor []).1 = Some [].
Proof.
  split; [reflexivity|].
  exact (chain_empty [Add (of_Z 5); Sort true; FilterGreaterThan (of_Z 1)]
    (fresh_processor []).2 (fresh_processor []).1 eq_refl).
Defined.

Section NumericFacts.

Lemma gt_not_nan (e t : spec_float) :
  Number.gt e t = true → is_nan e = false ∧ is_nan t = false.
Proof. by destruct e as [[]|[]| |[] ? ?], t as [[]|[]| |[] ? ?]. Qed.

Lemma gt_NaN (e : spec_float) : Number.gt e NaN = false.
Proof. by destruct e as [[]|[]| |[] ? ?]. Qed.

Lemma gt_Infinity (e : spec_float) : Number.gt e Infinity = false.
Proof. by destruct e as [[]|[]| |[] ? ?]. Qed.

Lemma of_Z_m1 : of_Z (-1) = S754_finite true 4503599627370496 (-52).
Proof. reflexivity. Qed.

(** [a * -1] is [-a]. *)
Lemma mul_m1_r (a : spec_float) : is_number a → Number.mul a (of_Z (-1)) = Number.neg a.
Proof.
  unfold is_number. rewrite of_Z_m1. intros Ha.
  destruct a as [sa|sa| |sa ma ea]; cbn [Number.mul SFmul Number.neg SFopp];
    [by destruct sa..|done|].
  replace (xorb sa true) with (negb sa) by by destruct sa.
  rewrite Pos2Z.inj_mul. change (Z.pos 4503599627370496) with (2 ^ 52).
  by apply (binary_round_aux_exact (negb sa) ma ea 52).
Qed.

Lemma neg_involutive (a : spec_float) : Number.neg (Number.neg a) = a.
Proof. by destruct a as [[]|[]| |[] ? ?]. Qed.

Lemma neg_is_number (a : spec_float) : is_number a → is_number (Number.neg a).
Proof. by destruct a. Qed.

(** [a + 0] is [a], but for [-0 + 0], which is [+0]; [a + -0] is [a]. *)
Lemma add_0_r (a : spec_float) : Number.add a (of_Z 0) = plus_zero a.
Proof. by destruct a as [[]|[]| |[] ? ?]. Qed.

Lemma add_m0_r (a : spec_float) : Number.add a (Number.neg (of_Z 0)) = a.
Proof. by destruct a as [[]|[]| |[] ? ?]. Qed.

Lemma add_NaN_r (a : spec_float) : Number.add a NaN = NaN.
Proof. by destruct a as [[]|[]| |[] ? ?]. Qed.

Lemma mul_NaN_r (a : spec_float) : Number.mul a NaN = NaN.
Proof. by destruct a as [[]|[]| |[] ? ?]. Qed.

Lemma filter_gt_ordered (t : spec_float) (l : list spec_float) :
  Forall is_number l →
  Forall ordered_number (filter (λ e, Number.gt e t = true) l).
Proof.
  rewrite !Forall_forall. intros Hl e [Hgt He]%list_elem_of_filter.
  split; [by apply Hl|]. by apply gt_not_nan in Hgt as [? _].
Qed.

Lemma map_const_replicate {A B} (f : A → B) (b : B) (l : list A) :
  (∀ a, f a = b) → map f l = replicate (length l) b.
Proof. intros Hf. induction l as [|a l IH]; [done|]. cbn. by rewrite Hf, IH. Qed.

Lemma filter_none {A} (Q : A → Prop) `{∀ x, Decision (Q x)} (l : list A) :
  (∀ a, ¬ Q a) → filter Q l = [].
Proof.
  intros HQ. induction l as [|a l IH]; [done|].
  rewrite filter_cons_False; [done|apply HQ].
Qed.

Lemma filter_ext_in {A} (Q1 Q2 : A → Prop) `{∀ x, Decision (Q1 x), ∀ x, Decision (Q2 x)}
    (l : list A) :
  (∀ a, a ∈ l → Q1 a ↔ Q2 a) → filter Q1 l = filter Q2 l.
Proof.
  induction l as [|a l IH]; intros HQ; [done|].
  rewrite !filter_cons, IH by (intros b Hb; apply HQ; by right).
  apply decide_ext, HQ. by left.
Qed.

End NumericFacts.

(** X8: where no element is [NaN], [sort(ascending)] called twice leaves what
    one call leaves. *)
Theorem sort_idempotent (h : heap) (p : pref) (l : list spec_float) (ascending : bool) :
  contents h p = Some l →
  Forall ordered_number l →
  ∃ h1 h2 l1,
    chain [Sort ascending] p h = Some (p, h1) ∧
    chain [Sort ascending; Sort ascending] p h = Some (p, h2) ∧
    contents h1 p = Some l1 ∧ contents h2 p = Some l1.
Proof.
  intros Hl Hord.
  destruct (chain_run [Sort ascending] h p l Hl) as (h1 & Hrun1 & Hc1 & _).
  destruct (chain_run [Sort ascending; Sort ascending] h p l Hl) as (h2 & Hrun2 & Hc2 & _).
  exists h1, h2, (sort_list (DataProcessor.comparator ascending) l).
  split; [done|]. split; [done|]. split; [done|]. rewrite Hc2. f_equal.
  apply (sort_list_idempotent _ ordered_number
    (λ a, if ascending then units a else - units a)); [|done].
  intros a b. apply comparator_consistent.
Qed.

Lemma sort_idempotent_witness :
  contents (fresh_processor (nums [3; 1; 2])).2 (fresh_processor (nums [3; 1; 2])).1
    = Some (nums [3; 1; 2]) ∧
  Forall ordered_number (nums [3; 1; 2]) ∧
  ∃ h1 h2 l1,
    chain [Sort true] (fresh_processor (nums [3; 1; 2])).1
      (fresh_processor (nums [3; 1; 2])).2
    = Some ((fresh_processor (nums [3; 1; 2])).1, h1) ∧
    chain [Sort true; Sort true] (fresh_processor (nums [3; 1; 2])).1
      (fresh_processor (nums [3; 1; 2])).2
    = Some ((fresh_processor (nums [3; 1; 2])).1, h2) ∧
    contents h1 (fresh_processor (nums [3; 1; 2])).1 = Some l1 ∧
    contents h2 (fresh_processor (nums [3; 1; 2])).1 = Some l1.
Proof.
  assert (Forall ordered_number (nums [3; 1; 2])) as Hord
    by (repeat constructor; reflexivity).
  split; [reflexivity|]. split; [exact Hord|].
  exact (sort_idempotent (fresh_processor (nums [3; 1; 2])).2
    (fresh_processor (nums [3; 1; 2])).1 (nums [3; 1; 2]) true eq_refl Hord).
Defined.

(** X9: where no element is [NaN], it makes no difference whether the
    sequence is filtered and then sorted or sorted and then filtered, and
    either way it ends in numerical order. *)
Theorem filter_sort_commute (h : heap) (p : pref) (l : list spec_float)
    (t : spec_float) (ascending : bool) :
  contents h p = Some l →
  Forall ordered_number l →
  ∃ h1 h2 l',
    chain [FilterGreaterThan t; Sort ascending] p h = Some (p, h1) ∧
    chain [Sort ascending; FilterGreaterThan t] p h = Some (p, h2) ∧
    contents h1 p = Some l' ∧ contents h2 p = Some l' ∧
    StronglySorted (in_order ascending) l'.
Proof.
  intros Hl Hord.
  destruct (chain_run [FilterGreaterThan t; Sort ascending] h p l Hl)
    as (h1 & Hrun1 & Hc1 & _).
  destruct (chain_run [Sort ascending; FilterGreaterThan t] h p l Hl)
    as (h2 & Hrun2 & Hc2 & _).
  eexists h1, h2, _. split; [done|]. split; [done|]. split; [exact Hc1|]. split.
  - rewrite Hc2. f_equal. cbn.
    apply (filter_sort_list _ ordered_number
      (λ a, if ascending then units a else - units a)); [|done].
    intros a b. apply comparator_consistent.
  - cbn. apply sort_list_in_order.
    rewrite Forall_forall in *. intros e [_ He]%list_elem_of_filter. by apply Hord.
Qed.

Lemma filter_sort_commute_witness :
  contents (fresh_processor (nums [50; 20; 60; 40])).2
           (fresh_processor (nums [50; 20; 60; 40])).1
    = Some (nums [50; 20; 60; 40]) ∧
  Forall ordered_number (nums [50; 20; 60; 40]) ∧
  ∃ h1 h2 l',
    chain [FilterGreaterThan (of_Z 35); Sort false]
      (fresh_processor (nums [50; 20; 60; 40])).1
      (fresh_processor (nums [50; 20; 60; 40])).2
    = Some ((fresh_processor (nums [50; 20; 60; 40])).1, h1) ∧
    chain [Sort false; FilterGreaterThan (of_Z 35)]
      (fresh_processor (nums [50; 20; 60; 40])).1
      (fresh_processor (nums [50; 20; 60; 40])).2
    = Some ((fresh_processor (nums [50; 20; 60; 40])).1, h2) ∧
    contents h1 (fresh_processor (nums [50; 20; 60; 40])).1 = Some l' ∧
    contents h2 (fresh_processor (nums [50; 20; 60; 40])).1 = Some l' ∧
    StronglySorted (in_order false) l'.
Proof.
  assert (Forall ordered_number (nums [50; 20; 60; 40])) as Hord
    by (repeat constructor; reflexivity).
  split; [reflexivity|]. split; [exact Hord|].
  exact (filter_sort_commute (fresh_processor (nums [50; 20; 60; 40])).2
    (fresh_processor (nums [50; 20; 60; 40])).1 (nums [50; 20; 60; 40]) (of_Z 35) false
    eq_refl Hord).
Defined.

(** Where an element is [NaN] the two orders differ. *)
Example filter_sort_with_NaN :
  result_of (chain [FilterGreaterThan (of_Z 0); Sort true]
               (fresh_processor [of_Z 2; NaN; of_Z 1]).1)
    (fresh_processor [of_Z 2; NaN; of_Z 1]).2 = Some (nums [1; 2]) ∧
  result_of (chain [Sort true; FilterGreaterThan (of_Z 0)]
               (fresh_processor [of_Z 2; NaN; of_Z 1]).1)
    (fresh_processor [of_Z 2; NaN; of_Z 1]).2 = Some (nums [2; 1]).
Proof. split; vm_compute; reflexivity. Qed.

(** X10: two filters give the same sequence in either order; and when the
    first threshold is not above the second, the second filter alone gives
    it. *)
Theorem filter_twice (h : heap) (p : pref) (l : list spec_float) (t1 t2 : spec_float) :
  contents h p = Some l →
  ∃ h1 h2 l',
    chain [FilterGreaterThan t1; FilterGreaterThan t2] p h = Some (p, h1) ∧
    chain [FilterGreaterThan t2; FilterGreaterThan t1] p h = Some (p, h2) ∧
    contents h1 p = Some l' ∧ contents h2 p = Some l' ∧
    (Forall is_number l → is_number t1 → is_number t2 → Number.le t1 t2 = true →
     ∃ h3, chain [FilterGreaterThan t2] p h = Some (p, h3) ∧ contents h3 p = Some l').
Proof.
  intros Hl.
  destruct (chain_run [FilterGreaterThan t1; FilterGreaterThan t2] h p l Hl)
    as (h1 & Hrun1 & Hc1 & _).
  destruct (chain_run [FilterGreaterThan t2; FilterGreaterThan t1] h p l Hl)
    as (h2 & Hrun2 & Hc2 & _).
  eexists h1, h2, _. split; [done|]. split; [done|]. split; [exact Hc1|]. split.
  - rewrite Hc2. f_equal. cbn. rewrite !list_filter_filter.
    apply list_filter_iff. tauto.
  - intros Hnum Ht1 Ht2 Hle.
    destruct (chain_run [FilterGreaterThan t2] h p l Hl) as (h3 & Hrun3 & Hc3 & _).
    exists h3. split; [done|]. rewrite Hc3. f_equal. cbn.
    rewrite list_filter_filter. apply filter_ext_in.
    rewrite Forall_forall in Hnum.
    intros e He%Hnum. split; [|tauto]. intros Hgt. split; [done|].
    pose proof (gt_not_nan e t2 Hgt) as [Hne Hnt2].
    assert (is_nan t1 = false) as Hnt1
      by (by destruct t1 as [[]|[]| |[] ? ?], t2 as [[]|[]| |[] ? ?]).
    apply gt_units in Hgt; [|done..]. apply le_units in Hle; [|done..].
    apply gt_units; [done..|lia].
Qed.

Lemma filter_twice_witness :
  contents (fresh_processor (nums [10; 40; 20; 50])).2
           (fresh_processor (nums [10; 40; 20; 50])).1
    = Some (nums [10; 40; 20; 50]) ∧
  ∃ h1 h2 l',
    chain [FilterGreaterThan (of_Z 15); FilterGreaterThan (of_Z 35)]
      (fresh_processor (nums [10; 40; 20; 50])).1
      (fresh_processor (nums [10; 40; 20; 50])).2
    = Some ((fresh_processor (nums [10; 40; 20; 50])).1, h1) ∧
    chain [FilterGreaterThan (of_Z 35); FilterGreaterThan (of_Z 15)]
      (fresh_processor (nums [10; 40; 20; 50])).1
      (fresh_processor (nums [10; 40; 20; 50])).2
    = Some ((fresh_processor (nums [10; 40; 20; 50])).1, h2) ∧
    contents h1 (fresh_processor (nums [10; 40; 20; 50])).1 = Some l' ∧
    contents h2 (fresh_processor (nums [10; 40; 20; 50])).1 = Some l' ∧
    ∃ h3, chain [FilterGreaterThan (of_Z 35)]
            (fresh_processor (nums [10; 40; 20; 50])).1
            (fresh_processor (nums [10; 40; 20; 50])).2
          = Some ((fresh_processor (nums [10; 40; 20; 50])).1, h3) ∧
          contents h3 (fresh_processor (nums [10; 40; 20; 50])).1 = Some l'.
Proof.
  split; [reflexivity|].
  destruct (filter_twice (fresh_processor (nums [10; 40; 20; 50])).2
    (fresh_processor (nums [10; 40; 20; 50])).1 (nums [10; 40; 20; 50])
    (of_Z 15) (of_Z 35) eq_refl) as (h1 & h2 & l' & Hr1 & Hr2 & Hc1 & Hc2 & Habs).
  exists h1, h2, l'. split; [exact Hr1|]. split; [exact Hr2|].
  split; [exact Hc1|]. split; [exact Hc2|].
  apply Habs; [repeat constructor; reflexivity|reflexivity..].
Defined.

(** X11: [multiply(-1)] puts [-e] in the place of every element [e], and
    called twice gives every element back as it was. *)
Theorem multiply_minus_one (h : heap) (p : pref) (l : list spec_float) :
  contents h p = Some l →
  Forall is_number l →
  ∃ h1 h2,
    chain [Multiply (of_Z (-1))] p h = Some (p, h1) ∧
    contents h1 p = Some (map Number.neg l) ∧
    chain [Multiply (of_Z (-1)); Multiply (of_Z (-1))] p h = Some (p, h2) ∧
    contents h2 p = Some l.
Proof.
  intros Hl Hnum.
  destruct (chain_run [Multiply (of_Z (-1))] h p l Hl) as (h1 & Hrun1 & Hc1 & _).
  destruct (chain_run [Multiply (of_Z (-1)); Multiply (of_Z (-1))] h p l Hl)
    as (h2 & Hrun2 & Hc2 & _).
  assert (map (λ item, Number.mul item (of_Z (-1))) l = map Number.neg l) as Hneg.
  { clear -Hnum. induction Hnum as [|e l He _ IH]; [done|]. cbn [map].
    by rewrite IH, mul_m1_r. }
  exists h1, h2. split; [done|]. split.
  { rewrite Hc1. unfold effects. cbn [foldl effect]. by rewrite Hneg. }
  split; [done|]. rewrite Hc2. f_equal. unfold effects. cbn [foldl effect]. rewrite Hneg.
  clear -Hnum. induction Hnum as [|e l He _ IH]; [done|]. cbn [map].
  by rewrite IH, mul_m1_r, neg_involutive by by apply neg_is_number.
Qed.

Lemma multiply_minus_one_witness :
  contents (fresh_processor (nums [1; -2; 0])).2 (fresh_processor (nums [1; -2; 0])).1
    = Some (nums [1; -2; 0]) ∧
  Forall is_number (nums [1; -2; 0]) ∧
  ∃ h1 h2,
    chain [Multiply (of_Z (-1))] (fresh_processor (nums [1; -2; 0])).1
      (fresh_processor (nums [1; -2; 0])).2
    = Some ((fresh_processor (nums [1; -2; 0])).1, h1) ∧
    contents h1 (fresh_processor (nums [1; -2; 0])).1
    = Some [of_Z (-1); of_Z 2; S754_zero true] ∧
    chain [Multiply (of_Z (-1)); Multiply (of_Z (-1))]
      (fresh_processor (nums [1; -2; 0])).1 (fresh_processor (nums [1; -2; 0])).2
    = Some ((fresh_processor (nums [1; -2; 0])).1, h2) ∧
    contents h2 (fresh_processor (nums [1; -2; 0])).1 = Some (nums [1; -2; 0]).
Proof.
  assert (Forall is_number (nums [1; -2; 0])) as Hnum
    by (repeat constructor; reflexivity).
  split; [reflexivity|]. split; [exact Hnum|].
  exact (multiply_minus_one (fresh_processor (nums [1; -2; 0])).2
    (fresh_processor (nums [1; -2; 0])).1 (nums [1; -2; 0]) eq_refl Hnum).
Defined.

(** X12: [add(0)] leaves every element as it is except [-0], which becomes
    [+0]; [add(-0)] leaves every element as it is. *)
Theorem add_zero (h : heap) (p : pref) (l : list spec_float) :
  contents h p = Some l →
  ∃ h1 h2,
    chain [Add (of_Z 0)] p h = Some (p, h1) ∧
    contents h1 p = Some (map plus_zero l) ∧
    Forall2 same_value (map plus_zero l) l ∧
    chain [Add (Number.neg (of_Z 0))] p h = Some (p, h2) ∧
    contents h2 p = Some l.
Proof.
  intros Hl.
  destruct (chain_run [Add (of_Z 0)] h p l Hl) as (h1 & Hrun1 & Hc1 & _).
  destruct (chain_run [Add (Number.neg (of_Z 0))] h p l Hl) as (h2 & Hrun2 & Hc2 & _).
  exists h1, h2. split; [done|]. split.
  { rewrite Hc1. f_equal. apply map_ext, add_0_r. }
  split.
  { clear. induction l as [|e l IH]; constructor; [|done].
    destruct e; [by right|by left..]. }
  split; [done|]. rewrite Hc2. f_equal. cbn.
  rewrite <- (map_id l) at 2. apply map_ext, add_m0_r.
Qed.

Lemma add_zero_witness :
  contents (fresh_processor [of_Z 1; S754_zero true; NaN]).2
           (fresh_processor [of_Z 1; S754_zero true; NaN]).1
    = Some [of_Z 1; S754_zero true; NaN] ∧
  ∃ h1, chain [Add (of_Z 0)] (fresh_processor [of_Z 1; S754_zero true; NaN]).1
          (fresh_processor [of_Z 1; S754_zero true; NaN]).2
        = Some ((fresh_processor [of_Z 1; S754_zero true; NaN]).1, h1) ∧
        contents h1 (fresh_processor [of_Z 1; S754_zero true; NaN]).1
        = Some [of_Z 1; S754_zero false; NaN].
Proof.
  split; [reflexivity|].
  destruct (add_zero (fresh_processor [of_Z 1; S754_zero true; NaN]).2
    (fresh_processor [of_Z 1; S754_zero true; NaN]).1 [of_Z 1; S754_zero true; NaN]
    eq_refl) as (h1 & _ & Hr1 & Hc1 & _).
  exists h1. split; [exact Hr1|exact Hc1].
Defined.

(** X13: [filterGreaterThan] keeps no [NaN], so that a sort after a filter
    ends in numerical order whatever the sequence was. *)
Theorem filter_then_sort (h : heap) (p : pref) (l : list spec_float)
    (t : spec_float) (ascending : bool) :
  contents h p = Some l →
  Forall is_number l →
  ∃ h' l',
    chain [FilterGreaterThan t; Sort ascending] p h = Some (p, h') ∧
    contents h' p = Some l' ∧
    l' ≡ₚ filter (λ e, Number.gt e t = true) l ∧
    Forall (λ e, is_nan e = false ∧ Number.gt e t = true) l' ∧
    StronglySorted (in_order ascending) l'.
Proof.
  intros Hl Hnum.
  destruct (chain_run [FilterGreaterThan t; Sort ascending] h p l Hl)
    as (h' & Hrun & Hc & _).
  eexists h', _. split; [done|]. split; [exact Hc|]. cbn. split.
  - apply sort_list_Permutation.
  - split.
    + rewrite sort_list_Permutation. rewrite Forall_forall.
      intros e [Hgt _]%list_elem_of_filter. split; [|done].
      by apply gt_not_nan in Hgt as [? _].
    + by apply sort_list_in_order, filter_gt_ordered.
Qed.

Lemma filter_then_sort_witness :
  contents (fresh_processor [of_Z 2; NaN; of_Z 1]).2
           (fresh_processor [of_Z 2; NaN; of_Z 1]).1 = Some [of_Z 2; NaN; of_Z 1] ∧
  Forall is_number [of_Z 2; NaN; of_Z 1] ∧
  ∃ h' l',
    chain [FilterGreaterThan (of_Z 0); Sort true]
      (fresh_processor [of_Z 2; NaN; of_Z 1]).1 (fresh_processor [of_Z 2; NaN; of_Z 1]).2
    = Some ((fresh_processor [of_Z 2; NaN; of_Z 1]).1, h') ∧
    contents h' (fresh_processor [of_Z 2; NaN; of_Z 1]).1 = Some l' ∧
    StronglySorted (in_order true) l'.
Proof.
  assert (Forall is_number [of_Z 2; NaN; of_Z 1]) as Hnum
    by (repeat constructor; reflexivity).
  split; [reflexivity|]. split; [exact Hnum|].
  destruct (filter_then_sort (fresh_processor [of_Z 2; NaN; of_Z 1]).2
    (fresh_processor [of_Z 2; NaN; of_Z 1]).1 [of_Z 2; NaN; of_Z 1] (of_Z 0) true
    eq_refl Hnum) as (h' & l' & Hrun & Hc & _ & _ & Hsorted).
  exists h', l'. split; [exact Hrun|]. split; [exact Hc|exact Hsorted].
Defined.

(** X14: no element is greater than [NaN] or than [Infinity]: with either as
    the threshold [filterGreaterThan] leaves the container empty. *)
Theorem filter_keeps_nothing (h : heap) (p : pref) (l : list spec_float) :
  contents h p = Some l →
  ∃ h1 h2,
    chain [FilterGreaterThan NaN] p h = Some (p, h1) ∧ contents h1 p = Some [] ∧
    chain [FilterGreaterThan Infinity] p h = Some (p, h2) ∧ contents h2 p = Some [].
Proof.
  intros Hl.
  destruct (chain_run [FilterGreaterThan NaN] h p l Hl) as (h1 & Hrun1 & Hc1 & _).
  destruct (chain_run [FilterGreaterThan Infinity] h p l Hl) as (h2 & Hrun2 & Hc2 & _).
  exists h1, h2. split; [done|]. split.
  { rewrite Hc1. f_equal. apply filter_none. intros e. by rewrite gt_NaN. }
  split; [done|]. rewrite Hc2. f_equal. apply filter_none. intros e. by rewrite gt_Infinity.
Qed.

Lemma filter_keeps_nothing_witness :
  contents (fresh_processor [of_Z 2; Infinity; of_Z 1]).2
           (fresh_processor [of_Z 2; Infinity; of_Z 1]).1
    = Some [of_Z 2; Infinity; of_Z 1] ∧
  ∃ h1 h2,
    chain [FilterGreaterThan NaN] (fresh_processor [of_Z 2; Infinity; of_Z 1]).1
      (fresh_processor [of_Z 2; Infinity; of_Z 1]).2
    = Some ((fresh_processor [of_Z 2; Infinity; of_Z 1]).1, h1) ∧
    contents h1 (fresh_processor [of_Z 2; Infinity; of_Z 1]).1 = Some [] ∧
    chain [FilterGreaterThan Infinity] (fresh_processor [of_Z 2; Infinity; of_Z 1]).1
      (fresh_processor [of_Z 2; Infinity; of_Z 1]).2
    = Some ((fresh_processor [of_Z 2; Infinity; of_Z 1]).1, h2) ∧
    contents h2 (fresh_processor [of_Z 2; Infinity; of_Z 1]).1 = Some [].
Proof.
  split; [reflexivity|].
  exact (filter_keeps_nothing (fresh_processor [of_Z 2; Infinity; of_Z 1]).2
    (fresh_processor [of_Z 2; Infinity; of_Z 1]).1 [of_Z 2; Infinity; of_Z 1] eq_refl).
Defined.

(** X15: with [NaN] as the value, [add] and [multiply] turn every element
    into [NaN]: the length stays, and a filter after it keeps nothing. *)
Theorem NaN_value (h : heap) (p : pref) (l : list spec_float) (t : spec_float) :
  contents h p = Some l →
  ∃ h1 h2 h3,
    chain [Add NaN] p h = Some (p, h1) ∧
    contents h1 p = Some (replicate (length l) NaN) ∧
    chain [Multiply NaN] p h = Some (p, h2) ∧
    contents h2 p = Some (replicate (length l) NaN) ∧
    chain [Add NaN; FilterGreaterThan t] p h = Some (p, h3) ∧
    contents h3 p = Some [].
Proof.
  intros Hl.
  destruct (chain_run [Add NaN] h p l Hl) as (h1 & Hrun1 & Hc1 & _).
  destruct (chain_run [Multiply NaN] h p l Hl) as (h2 & Hrun2 & Hc2 & _).
  destruct (chain_run [Add NaN; FilterGreaterThan t] h p l Hl) as (h3 & Hrun3 & Hc3 & _).
  exists h1, h2, h3. split; [done|]. split.
  { rewrite Hc1. f_equal. apply map_const_replicate, add_NaN_r. }
  split; [done|]. split.
  { rewrite Hc2. f_equal. apply map_const_replicate, mul_NaN_r. }
  split; [done|]. rewrite Hc3. f_equal. cbn.
  rewrite (map_const_replicate _ NaN) by apply add_NaN_r.
  induction (length l) as [|n IH]; [done|]. cbn [replicate].
  rewrite filter_cons_False; [done|]. by destruct t as [[]|[]| |[] ? ?].
Qed.

Lemma NaN_value_witness :
  contents (fresh_processor (nums [1; 2; 3])).2 (fresh_processor (nums [1; 2; 3])).1
    = Some (nums [1; 2; 3]) ∧
  ∃ h1, chain [Add NaN] (fresh_processor (nums [1; 2; 3])).1
          (fresh_processor (nums [1; 2; 3])).2
        = Some ((fresh_processor (nums [1; 2; 3])).1, h1) ∧
        contents h1 (fresh_processor (nums [1; 2; 3])).1 = Some [NaN; NaN; NaN].
Proof.
  split; [reflexivity|].
  destruct (NaN_value (fresh_processor (nums [1; 2; 3])).2
    (fresh_processor (nums [1; 2; 3])).1 (nums [1; 2; 3]) (of_Z 0) eq_refl)
    as (h1 & _ & _ & Hr1 & Hc1 & _).
  exists h1. split; [exact Hr1|exact Hc1].
Defined.

(** X16: a processor made from what [getResult] returned is a new one with
    the same sequence, held in a new array that is neither the returned one
    nor the array of another processor: whatever is afterwards written to
    the returned array, both processors keep their sequences. *)
Theorem create_from_result (h : heap) (p : pref) (l : list spec_float) :
  separated h →
  contents h p = Some l →
  ∃ r h1 q h2 d,
    DataProcessor.getResult p h = Some (r, h1) ∧
    createProcessor (Some r) h1 = Some (q, h2) ∧
    procs h1 !! q = None ∧ q ≠ p ∧
    procs h2 !! q = Some d ∧ d ≠ r ∧ arrays h1 !! d = None ∧
    contents h2 q = Some l ∧ contents h2 p = Some l ∧
    arrays h2 !! r = Some l ∧
    separated h2 ∧
    (∀ l2, ∃ h3, write r l2 h2 = Some (tt, h3) ∧
                 contents h3 q = Some l ∧ contents h3 p = Some l).
Proof.
  intros Hs Hl.
  destruct (getResult_owned h p l Hs Hl) as (r & h1 & Hrun & Hr & Hown & Hs1 & Hp & Hc).
  destruct (constructor_run h1 (Some r)) as
    (q & h2 & d & l0 & Hrun2 & Hq & Hinit & _ & Hprocs & Hd & Hd0 & Hframe & _ & Hs2).
  { intros a [= <-]. by rewrite Hr. }
  assert (l0 = l) as -> by (specialize (Hinit r eq_refl); congruence).
  pose proof Hl as (dp & Hdp & Hldp)%contents_Some.
  pose proof (fresh_proc h1) as Hfq. rewrite <- Hq in Hfq.
  assert (q ≠ p) as Hne by (intros ->; by rewrite Hp, Hdp in Hfq).
  assert (d ≠ r) as Hdr by (intros ->; by rewrite Hr in Hd0).
  assert (dp ≠ r) as Hdpr.
  { destruct Hown as [_ Hfree]. apply (Hfree p). by rewrite Hp. }
  assert (arrays h2 !! dp = Some l) as Hldp2.
  { specialize (Hc p). rewrite Hl in Hc.
    apply contents_Some in Hc as (d' & Hp' & Hd'). rewrite Hp, Hdp in Hp'.
    injection Hp' as <-. rewrite Hframe; [done|by rewrite Hd']. }
  assert (procs h2 !! p = Some dp) as Hp2
    by (by rewrite Hprocs, lookup_insert_ne, Hp).
  assert (procs h2 !! q = Some d) as Hq2 by (by rewrite Hprocs, lookup_insert_eq).
  assert (arrays h2 !! r = Some l) as Hr2 by (rewrite Hframe; [done|by rewrite Hr]).
  exists r, h1, q, h2, d. split; [done|]. split; [done|]. split; [done|].
  split; [done|]. split; [done|]. split; [done|]. split; [done|].
  split. { apply contents_Some. by exists d. }
  split. { apply contents_Some. by exists dp. }
  split; [done|]. split; [by apply Hs2|].
  intros l2. exists (set_arrays <[r := l2]> h2). unfold write. rewrite Hr2.
  split; [done|]. split; apply contents_Some.
  - exists d. cbn. by rewrite lookup_insert_ne.
  - exists dp. cbn. by rewrite lookup_insert_ne.
Qed.

Lemma create_from_result_witness :
  separated (fresh_processor (nums [1; 2; 3])).2 ∧
  contents (fresh_processor (nums [1; 2; 3])).2 (fresh_processor (nums [1; 2; 3])).1
    = Some (nums [1; 2; 3]) ∧
  ∃ r h1 q h2 d,
    DataProcessor.getResult (fresh_processor (nums [1; 2; 3])).1
      (fresh_processor (nums [1; 2; 3])).2 = Some (r, h1) ∧
    createProcessor (Some r) h1 = Some (q, h2) ∧
    q ≠ (fresh_processor (nums [1; 2; 3])).1 ∧
    procs h2 !! q = Some d ∧ d ≠ r ∧
    contents h2 q = Some (nums [1; 2; 3]).
Proof.
  assert (separated (fresh_processor (nums [1; 2; 3])).2) as Hs by compute_done.
  split; [exact Hs|]. split; [reflexivity|].
  destruct (create_from_result (fresh_processor (nums [1; 2; 3])).2
    (fresh_processor (nums [1; 2; 3])).1 (nums [1; 2; 3]) Hs eq_refl)
    as (r & h1 & q & h2 & d & Hr1 & Hr2 & _ & Hne & Hq & Hd & _ & Hc & _).
  exists r, h1, q, h2, d. split; [exact Hr1|]. split; [exact Hr2|].
  split; [exact Hne|]. split; [exact Hq|]. split; [exact Hd|exact Hc].
Defined.

(** X17: a chain of suspending calls returns the instance it was started
    on and sets one timer for each call but [sort], with the delay of the
    call, in the order of the calls; when none of its sorts meets a [NaN] it
    leaves what the calls make of the sequence. *)
Theorem chainAsync_timers (cs : list (call * spec_float)) (h : heap) (p : pref)
    (l : list spec_float) :
  contents h p = Some l →
  ∃ h', chainAsync cs p h = Some (p, h') ∧
        timers h' = reverse (delays cs) ++ timers h ∧
        (sorts_without_NaN cs.*1 l = true → contents h' p = Some (effects cs.*1 l)).
Proof.
  revert h l. induction cs as [|[c delayMs] cs IH]; intros h l Hl.
  - by exists h.
  - assert (∃ h1, invokeAsync c delayMs p h = Some (p, h1) ∧
                  contents h1 p = Some (effect c l) ∧
                  timers h1 = delays [(c, delayMs)] ++ timers h) as (h1 & Hrun & Hc1 & Ht1).
    { destruct c as [v|v|t|asc];
        [destruct (invoke_updates (Add v) (set_timers (cons delayMs) h) p l Hl)
           as (h1 & Hrun & Hup & Ht)
        |destruct (invoke_updates (Multiply v) (set_timers (cons delayMs) h) p l Hl)
           as (h1 & Hrun & Hup & Ht)
        |destruct (invoke_updates (FilterGreaterThan t) (set_timers (cons delayMs) h) p l Hl)
           as (h1 & Hrun & Hup & Ht)
        |destruct (invoke_updates (Sort asc) h p l Hl) as (h1 & Hrun & Hup & Ht)];
        exists h1; (split; [exact Hrun|]); (split; [by eapply updates_contents|exact Ht]). }
    destruct (IH h1 (effect c l) Hc1) as (h' & Hrest & Ht' & Hc).
    exists h'. split; [|split].
    + cbn [chainAsync]. unfold mbind, Js_bind. by rewrite Hrun.
    + rewrite Ht', Ht1.
      assert (delays ((c, delayMs) :: cs) = delays [(c, delayMs)] ++ delays cs) as ->
        by by destruct c.
      rewrite reverse_app, <- app_assoc. by destruct c.
    + intros [_ Hrest']%andb_true_iff. by apply Hc.
Qed.

Lemma chainAsync_timers_witness :
  contents (fresh_processor (nums [1; 2; 3])).2 (fresh_processor (nums [1; 2; 3])).1
    = Some (nums [1; 2; 3]) ∧
  ∃ h', chainAsync [(Add (of_Z 5), of_Z 100); (Sort false, of_Z 7);
                    (Multiply (of_Z 2), of_Z 50)]
          (fresh_processor (nums [1; 2; 3])).1 (fresh_processor (nums [1; 2; 3])).2
        = Some ((fresh_processor (nums [1; 2; 3])).1, h') ∧
        timers h' = [of_Z 50; of_Z 100] ∧
        contents h' (fresh_processor (nums [1; 2; 3])).1 = Some (nums [16; 14; 12]).
Proof.
  split; [reflexivity|].
  destruct (chainAsync_timers [(Add (of_Z 5), of_Z 100); (Sort false, of_Z 7);
                               (Multiply (of_Z 2), of_Z 50)]
    (fresh_processor (nums [1; 2; 3])).2 (fresh_processor (nums [1; 2; 3])).1
    (nums [1; 2; 3]) eq_refl) as (h' & Hrun & Ht & Hc).
  exists h'. split; [exact Hrun|]. split; [exact Ht|exact (Hc eq_refl)].
Defined.

(** X18: where no element is [NaN], [sort(false)] leaves the reverse of what
    [sort(true)] leaves, element for element the same value. *)
Theorem sort_descending_reverse (h : heap) (p : pref) (l : list spec_float) :
  contents h p = Some l →
  Forall ordered_number l →
  ∃ h1 h2 l1 l2,
    chain [Sort true] p h = Some (p, h1) ∧ contents h1 p = Some l1 ∧
    chain [Sort false] p h = Some (p, h2) ∧ contents h2 p = Some l2 ∧
    Forall2 same_value l2 (reverse l1).
Proof.
  intros Hl Hord.
  destruct (chain_run [Sort true] h p l Hl) as (h1 & Hrun1 & Hc1 & _).
  destruct (chain_run [Sort false] h p l Hl) as (h2 & Hrun2 & Hc2 & _).
  eexists h1, h2, _, _. split; [done|]. split; [exact Hc1|]. split; [done|].
  split; [exact Hc2|]. unfold effects. cbn [foldl effect].
  set (s := sort_list (DataProcessor.comparator true) l).
  assert (Forall ordered_number s) as Hs by (unfold s; by rewrite sort_list_Permutation).
  apply Forall2_flip.
  apply (Forall2_impl same_value); [|by intros a b [->|[? ?]]; [left|right]].
  apply sort_list_unique; [done|..].
  - unfold s. by rewrite reverse_Permutation, sort_list_Permutation.
  - apply (StronglySorted_on ordered_number (λ a b, units b ≤ units a));
      [|by rewrite reverse_Permutation|].
    + intros a b [Ha Hna] [Hb Hnb] Hab. by apply le_units.
    + apply Sorted_StronglySorted; [intros a b c; lia|].
      apply (Sorted_reverse (λ a b, units a ≤ units b)), StronglySorted_Sorted.
      apply (sort_list_sorted _ ordered_number units); [|done].
      intros a b Ha Hb. by rewrite (comparator_units true).
Qed.

Lemma sort_descending_reverse_witness :
  contents (fresh_processor (nums [40; 60; 50])).2 (fresh_processor (nums [40; 60; 50])).1
    = Some (nums [40; 60; 50]) ∧
  Forall ordered_number (nums [40; 60; 50]) ∧
  ∃ h1 h2 l1 l2,
    chain [Sort true] (fresh_processor (nums [40; 60; 50])).1
      (fresh_processor (nums [40; 60; 50])).2
    = Some ((fresh_processor (nums [40; 60; 50])).1, h1) ∧
    contents h1 (fresh_processor (nums [40; 60; 50])).1 = Some l1 ∧
    chain [Sort false] (fresh_processor (nums [40; 60; 50])).1
      (fresh_processor (nums [40; 60; 50])).2
    = Some ((fresh_processor (nums [40; 60; 50])).1, h2) ∧
    contents h2 (fresh_processor (nums [40; 60; 50])).1 = Some l2 ∧
    Forall2 same_value l2 (reverse l1).
Proof.
  assert (Forall ordered_number (nums [40; 60; 50])) as Hord
    by (repeat constructor; reflexivity).
  split; [reflexivity|]. split; [exact Hord|].
  exact (sort_descending_reverse (fresh_processor (nums [40; 60; 50])).2
    (fresh_processor (nums [40; 60; 50])).1 (nums [40; 60; 50]) eq_refl Hord).
Defined.
